(** * core/block.go of go-nebulas: a shallow embedding and its properties

    The Go methods of [Block] mutate blocks through pointers (the ancestor
    walk of [LinkParentBlock] writes the height of every block it visits), so
    the embedding threads a [World] (a heap of blocks addressed by location,
    and the shared transaction pool) through a small state-and-failure monad.
    The collaborators that live in other packages (state trie, transaction
    engine, protobuf codec, SHA3) are the operations of the class
    [Collaborators], the consensus backend is an argument of [Verify];
    module [Ref] gives a small executable implementation of them, on which
    concrete runs are evaluated. *)

From Stdlib Require Import ZArith Strings.String Strings.Byte.
From stdpp Require Import base option list gmap.

Local Open Scope Z_scope.

(** ** Value types *)

(** [Hash] and [Address] are Go byte slices ([type Hash []byte]). *)
Definition Hash : Type := list byte.
Definition Address : Type := list byte.

#[global] Instance byte_eq_dec : EqDecision byte := Byte.byte_eq_dec.

(** Modelled from the spec: [Hash.Equals], which core/types.go defines,
    after "opaque fixed-size byte identifiers with equality": two hashes are
    equal when they hold the same bytes. *)
Definition Hash_Equals (a b : Hash) : bool := bool_decide (a = b).

(** Go's [uint64] arithmetic wraps around. *)
Definition wrap64 (z : Z) : Z := z mod 2 ^ 64.

(** [BlockReward] given to coinbase. *)
Definition BlockReward : Z := 16.

(** Errors in block, and errors handed back by collaborators. *)
Inductive error : Type :=
| ErrInvalidBlockHash
| ErrInvalidBlockStateRoot
| ErrCollaborator (msg : string).

#[global] Instance error_eq_dec : EqDecision error.
Proof. solve_decision. Defined.

(** Modelled from the spec: the record [corepb.Account], generated into
    core/pb; [rewardCoinbase] touches only its [Balance] field, a
    [uint64]. *)
Record Account : Type := mkAccount { Balance : Z }.

(** Modelled from the spec: [byteutils.FromUint64] and [byteutils.FromInt64],
    which util/byteutils defines, after "nonce as 8-byte big/little-endian"
    and "timestamp as 8-byte signed integer encoding". The big-endian order
    is taken; no property below depends on the order. *)
Definition byte_of_Z (z : Z) : byte :=
  default x00 (Byte.of_N (Z.to_N (z mod 256))).

Fixpoint be_bytes (n : nat) (v : Z) : list byte :=
  match n with
  | O => []
  | S n' => byte_of_Z (Z.shiftr v (8 * Z.of_nat n')) :: be_bytes n' v
  end.

Definition FromUint64 (v : Z) : list byte := be_bytes 8 (wrap64 v).
Definition FromInt64 (v : Z) : list byte := be_bytes 8 (wrap64 v).

(** ** Collaborators (other packages)

    [*Transaction] with [Hash], [Execute] and [Verify]; [*trie.Trie] with
    [Get], [Put], [RootHash] and [Clone]; the protobuf codec of
    [corepb.Account]; SHA3-256. [Transaction] and [Trie] are the types of
    what a [*Transaction] and a [*trie.Trie] point to. A trie is held by
    value: every block owns its tries and [Clone] yields an independent
    copy. *)
Class Collaborators (Transaction Trie : Type) : Type := {
  (** [tx.Hash()] *)
  tx_Hash : Transaction → Hash;
  (** [tx.Execute(stateTrie, txsTrie)]: the two tries after the call and the
      error, [None] for [nil]; the call reads and writes nothing else. *)
  tx_Execute : Transaction → Trie → Trie → Trie * Trie * option error;
  (** [tx.Verify()] *)
  tx_Verify : Transaction → option error;
  (** [v, _ := t.Get(key)]: [None] when [v == nil]. *)
  trie_Get : Trie → list byte → option (list byte);
  (** [t.Put(key, val)]: the trie afterwards (what [Put] returns is dropped
      by its caller). *)
  trie_Put : Trie → list byte → list byte → Trie;
  trie_RootHash : Trie → Hash;
  (** [t.Clone()]: [inl] the clone, [inr] the error. *)
  trie_Clone : Trie → Trie + error;
  (** [proto.Unmarshal] into a fresh [corepb.Account], and [proto.Marshal]. *)
  proto_Unmarshal : list byte → Account + error;
  proto_Marshal : Account → list byte + error;
  (** [sha3.New256()], written to and summed: the digest of all the bytes
      written. *)
  sha3_256 : list byte → Hash
}.

(** ** The heap of blocks *)

(** A [*Block] is a location; [nil] is [None] where a pointer may be nil. *)
Definition loc : Type := positive.

Section Core.

Context {Transaction Trie : Type} `{!Collaborators Transaction Trie}.

(** *** Data model

    [header], [coinbase] and the two tries are pointers in the Go structs;
    a block owns what they point to ([NewBlock] and [FromProto] allocate the
    header, [LinkParentBlock] installs a fresh clone), so they are fields by
    value here. [parenetBlock] stays a pointer: the walk of
    [LinkParentBlock] writes through it. *)

Record BlockHeader : Type := mkBlockHeader {
  hash : Hash;
  parentHash : Hash;
  stateRoot : Hash;
  nonce : Z;          (* uint64 *)
  coinbase : Address;
  timestamp : Z;      (* int64 *)
  chainID : Z         (* uint32 *)
}.

Record Block : Type := mkBlock {
  header : BlockHeader;
  transactions : list Transaction;
  sealed : bool;
  height : Z;         (* uint64 *)
  parenetBlock : option loc;
  stateTrie : Trie;
  txsTrie : Trie
}.

(** The blocks in memory and the transaction pool they share
    ([block.txPool]): the pool is the sequence of transactions handed to
    [Put], oldest first. *)
Record World : Type := mkWorld {
  blocks : gmap loc Block;
  txPool : list Transaction
}.

(** Field updates. *)
Definition with_hash (h : Hash) (hd : BlockHeader) : BlockHeader :=
  mkBlockHeader h (parentHash hd) (stateRoot hd) (nonce hd) (coinbase hd)
                (timestamp hd) (chainID hd).
Definition with_stateRoot (r : Hash) (hd : BlockHeader) : BlockHeader :=
  mkBlockHeader (hash hd) (parentHash hd) r (nonce hd) (coinbase hd)
                (timestamp hd) (chainID hd).
Definition with_nonce (n : Z) (hd : BlockHeader) : BlockHeader :=
  mkBlockHeader (hash hd) (parentHash hd) (stateRoot hd) n (coinbase hd)
                (timestamp hd) (chainID hd).
Definition with_timestamp (t : Z) (hd : BlockHeader) : BlockHeader :=
  mkBlockHeader (hash hd) (parentHash hd) (stateRoot hd) (nonce hd)
                (coinbase hd) t (chainID hd).

Definition with_header (f : BlockHeader → BlockHeader) (b : Block) : Block :=
  mkBlock (f (header b)) (transactions b) (sealed b) (height b)
          (parenetBlock b) (stateTrie b) (txsTrie b).
Definition with_transactions (txs : list Transaction) (b : Block) : Block :=
  mkBlock (header b) txs (sealed b) (height b) (parenetBlock b)
          (stateTrie b) (txsTrie b).
Definition with_sealed (s : bool) (b : Block) : Block :=
  mkBlock (header b) (transactions b) s (height b) (parenetBlock b)
          (stateTrie b) (txsTrie b).
Definition with_height (h : Z) (b : Block) : Block :=
  mkBlock (header b) (transactions b) (sealed b) h (parenetBlock b)
          (stateTrie b) (txsTrie b).
Definition with_parenetBlock (p : option loc) (b : Block) : Block :=
  mkBlock (header b) (transactions b) (sealed b) (height b) p
          (stateTrie b) (txsTrie b).
Definition with_stateTrie (t : Trie) (b : Block) : Block :=
  mkBlock (header b) (transactions b) (sealed b) (height b)
          (parenetBlock b) t (txsTrie b).
Definition with_txsTrie (t : Trie) (b : Block) : Block :=
  mkBlock (header b) (transactions b) (sealed b) (height b)
          (parenetBlock b) (stateTrie b) t.

Definition with_block (l : loc) (b : Block) (w : World) : World :=
  mkWorld (<[l := b]> (blocks w)) (txPool w).
Definition with_txPool (p : list Transaction) (w : World) : World :=
  mkWorld (blocks w) p.

(** *** The monad: a world is threaded through; a call returns, panics
    (Go's [panic], a run-time error, or logrus' [Fatal]), or is cut off
    when the fuel of a loop with no bound of its own runs out. *)
Inductive outcome (A : Type) : Type :=
| Ret (a : A) (w : World)
| Panic (msg : string)
| OutOfFuel.
Arguments Ret {A} a w.
Arguments Panic {A} msg.
Arguments OutOfFuel {A}.

Definition M (A : Type) : Type := World → outcome A.

Definition ret {A} (a : A) : M A := λ w, Ret a w.
Definition bind {A B} (m : M A) (f : A → M B) : M B :=
  λ w, match m w with
       | Ret a w' => f a w'
       | Panic msg => Panic msg
       | OutOfFuel => OutOfFuel
       end.
Definition panic {A} (msg : string) : M A := λ _, Panic msg.

Notation "'do' x <- m ; k" := (bind m (λ x, k))
  (at level 10, x name, m at level 100, k at level 200).
Notation "m ;; k" := (bind m (λ _, k))
  (at level 100, k at level 200, right associativity).

Definition nil_deref : string :=
  "invalid memory address or nil pointer dereference".
Definition sealed_msg : string := "Sealed block can't be changed.".

(** Reading [*block] and writing a field of it. *)
Definition load (block : loc) : M Block :=
  λ w, match blocks w !! block with
       | Some b => Ret b w
       | None => Panic nil_deref
       end.
Definition store (block : loc) (f : Block → Block) : M unit :=
  λ w, match blocks w !! block with
       | Some b => Ret tt (with_block block (f b) w)
       | None => Panic nil_deref
       end.
(** [block.txPool.Put(tx)] *)
Definition txPool_Put (tx : Transaction) : M unit :=
  λ w, Ret tt (with_txPool (txPool w ++ [tx]) w).

(** *** Construction *)

(** The block [NewBlock] allocates; [now] is [time.Now().Unix()], the pool
    it is given is the pool of the world. *)
Definition NewBlock (now chainID : Z) (coinbase : Address) (parentHash : Hash)
           (nonce : Z) (stateTrie txsTrie : Trie) : Block :=
  mkBlock (mkBlockHeader [] parentHash [] nonce coinbase now chainID)
          [] false 0 None stateTrie txsTrie.

(** *** Mutators *)

Definition SetNonce (block : loc) (n : Z) : M unit :=
  do b <- load block;
  if sealed b then panic sealed_msg
  else store block (with_header (with_nonce n)).

Definition SetTimestamp (block : loc) (t : Z) : M unit :=
  do b <- load block;
  if sealed b then panic sealed_msg
  else store block (with_header (with_timestamp t)).

(** [AddTransactions] returns the receiver. *)
Definition AddTransactions (block : loc) (txs : list Transaction) : M loc :=
  do b <- load block;
  if sealed b then panic sealed_msg
  else store block (λ b, with_transactions (transactions b ++ txs) b);;
       ret block.

(** *** Hashing *)

(** The bytes [HashBlock] writes to the hasher, in the order written. *)
Definition hashInput (b : Block) : list byte :=
  parentHash (header b) ++ FromUint64 (nonce (header b))
    ++ coinbase (header b) ++ FromInt64 (timestamp (header b))
    ++ concat (map tx_Hash (transactions b)).

Definition HashBlock (block : loc) : M Hash :=
  do b <- load block;
  ret (sha3_256 (hashInput b)).

(** *** Reward and execution *)

Definition rewardCoinbase (block : loc) : M (option error) :=
  do b <- load block;
  let stateTrie := stateTrie b in
  let coinbaseAddr := coinbase (header b) in
  let decoded : Account + error :=
    match trie_Get stateTrie coinbaseAddr with
    | Some v => proto_Unmarshal v
    | None => inl (mkAccount 0)
    end in
  match decoded with
  | inr err => ret (Some err)
  | inl coinbaseAccount =>
    let coinbaseAccount :=
      mkAccount (wrap64 (Balance coinbaseAccount + BlockReward)) in
    match proto_Marshal coinbaseAccount with
    | inr err => ret (Some err)
    | inl coinbaseBytes =>
      store block
            (with_stateTrie (trie_Put stateTrie coinbaseAddr coinbaseBytes));;
      ret None
    end
  end.

(** The first loop of [executeTransactions]: every transaction is executed
    against the tries left by the ones before it, the indices of the
    failing ones are appended to [invalidTxs]. *)
Fixpoint executeLoop (idx : Z) (txs : list Transaction) (st tr : Trie)
         (invalidTxs : list Z) : Trie * Trie * list Z :=
  match txs with
  | [] => (st, tr, invalidTxs)
  | tx :: rest =>
    let '(st', tr', err) := tx_Execute tx st tr in
    executeLoop (idx + 1) rest st' tr'
                (match err with
                 | Some _ => invalidTxs ++ [idx]
                 | None => invalidTxs
                 end)
  end.

(** Go's [txs[idx]], [txs[:hi]] and [txs[lo:]], which panic out of range
    (the range of [txs[:hi]] is taken up to the length; the code never
    slices beyond it). *)
Definition out_of_range : string := "index out of range".
Definition index (txs : list Transaction) (idx : Z) : M Transaction :=
  match (if idx <? 0 then None else txs !! Z.to_nat idx) with
  | Some tx => ret tx
  | None => panic out_of_range
  end.
Definition slice_to (txs : list Transaction) (hi : Z) : M (list Transaction) :=
  if (hi <? 0) || (Z.of_nat (length txs) <? hi) then panic out_of_range
  else ret (take (Z.to_nat hi) txs).
Definition slice_from (txs : list Transaction) (lo : Z) : M (list Transaction) :=
  if (lo <? 0) || (Z.of_nat (length txs) <? lo) then panic out_of_range
  else ret (drop (Z.to_nat lo) txs).

(** The second loop: [pending] is [invalidTxs] from its last entry to its
    first. *)
Fixpoint removeLoop (pending : list Z) (lenOfTxs : Z)
         (txs : list Transaction) : M (list Transaction) :=
  match pending with
  | [] => ret txs
  | idx :: pending' =>
    do tx <- index txs idx;
    txPool_Put tx;;
    if idx =? lenOfTxs - 1 then
      do txs' <- slice_to txs idx;
      removeLoop pending' lenOfTxs txs'
    else if idx =? 0 then
      do txs' <- slice_from txs 0;
      removeLoop pending' lenOfTxs txs'
    else
      do front <- slice_to txs idx;
      do back <- slice_from txs (idx + 1);
      removeLoop pending' lenOfTxs (front ++ back)
  end.

Definition executeTransactions (block : loc) : M unit :=
  do b <- load block;
  let '(st, tr, invalidTxs) :=
    executeLoop 0 (transactions b) (stateTrie b) (txsTrie b) [] in
  store block (λ b, with_txsTrie tr (with_stateTrie st b));;
  let txs := transactions b in
  let lenOfTxs := Z.of_nat (length txs) in
  do txs' <- removeLoop (rev invalidTxs) lenOfTxs txs;
  store block (with_transactions txs').

Definition HashBlockStateRoot (block : loc) : M Hash :=
  (* 1st, reward coinbase: the error it returns is dropped. *)
  rewardCoinbase block;;
  (* 2nd, execute transactions. *)
  executeTransactions block;;
  do b <- load block;
  ret (trie_RootHash (stateTrie b)).

(** *** Seal *)

Definition Seal (block : loc) : M unit :=
  do b <- load block;
  if sealed b then ret tt
  else
    do h <- HashBlock block;
    store block (with_header (with_hash h));;
    do r <- HashBlockStateRoot block;
    store block (with_header (with_stateRoot r));;
    store block (with_sealed true).

(** *** Verification *)

(** [bc.ConsensusHandler().VerifyBlock(block)]: what the consensus backend
    of a chain answers for a block of the world. *)
Definition BlockChain : Type := World → loc → option error.

Definition consensus_VerifyBlock (bc : BlockChain) (block : loc)
  : M (option error) := λ w, Ret (bc w block) w.

(** The loop over the transactions of [VerifyHash]. *)
Fixpoint verifyTransactions (txs : list Transaction) : option error :=
  match txs with
  | [] => None
  | tx :: rest =>
    match tx_Verify tx with
    | Some err => Some err
    | None => verifyTransactions rest
    end
  end.

Definition VerifyHash (block : loc) (bc : BlockChain) : M (option error) :=
  do r <- consensus_VerifyBlock bc block;
  match r with
  | Some err => ret (Some err)
  | None =>
    do wantedHash <- HashBlock block;
    do b <- load block;
    if negb (Hash_Equals wantedHash (hash (header b))) then
      ret (Some ErrInvalidBlockHash)
    else ret (verifyTransactions (transactions b))
  end.

Definition VerifyStateRoot (block : loc) : M (option error) :=
  do wantedStateRoot <- HashBlockStateRoot block;
  do b <- load block;
  if negb (Hash_Equals wantedStateRoot (stateRoot (header b))) then
    ret (Some ErrInvalidBlockStateRoot)
  else ret None.

Definition Verify (block : loc) (bc : BlockChain) : M (option error) :=
  do r <- VerifyHash block bc;
  match r with
  | Some err => ret (Some err)
  | None => VerifyStateRoot block
  end.

(** *** Linking *)

Definition clone_fail : string := "clone state trie from parent block fail.".

(** The first loop of [LinkParentBlock]: walk up until a block of positive
    height or the end of the chain. Nothing bounds it on a cycle of blocks
    of height zero, hence the fuel. *)
Fixpoint findAncestor (fuel : nat) (ancestor : option loc)
         (depth ancestorHeight : Z) : M (Z * Z) :=
  match ancestor with
  | None => ret (depth, ancestorHeight)
  | Some a =>
    match fuel with
    | O => λ _, OutOfFuel
    | S fuel' =>
      do blk <- load a;
      let depth := wrap64 (depth + 1) in
      let ancestorHeight := height blk in
      if 0 <? height blk then ret (depth, ancestorHeight)
      else findAncestor fuel' (parenetBlock blk) depth ancestorHeight
    end
  end.

(** The second loop: the heights of the blocks walked. *)
Fixpoint assignHeights (fuel : nat) (ancestor : option loc)
         (depth ancestorHeight : Z) : M unit :=
  match ancestor with
  | None => ret tt
  | Some a =>
    if 1 <? depth then
      match fuel with
      | O => λ _, OutOfFuel
      | S fuel' =>
        let depth := wrap64 (depth - 1) in
        store a (with_height (wrap64 (ancestorHeight + depth)));;
        do blk <- load a;
        assignHeights fuel' (parenetBlock blk) depth ancestorHeight
      end
    else ret tt
  end.

Definition LinkParentBlock (fuel : nat) (block parentBlock : loc) : M bool :=
  do b <- load block;
  do p <- load parentBlock;
  if negb (Hash_Equals (parentHash (header b)) (hash (header p))) then
    ret false
  else
    match trie_Clone (stateTrie p) with
    | inr err => panic clone_fail
    | inl stateTrie =>
      store block (with_stateTrie stateTrie);;
      store block (with_parenetBlock (Some parentBlock));;
      do found <- findAncestor fuel (Some block) 0 0;
      assignHeights fuel (Some block) found.1 found.2;;
      ret true
    end.

End Core.

Arguments Ret {_ _ _} a w.
Arguments Panic {_ _ _} msg.
Arguments OutOfFuel {_ _ _}.

(** ** What the methods compute

    Pure descriptions of what a run leaves behind, used to state the
    properties; the lemmas on [steps] below relate each of them to the
    monadic code. *)

Section Summaries.

Context {Transaction Trie : Type} `{!Collaborators Transaction Trie}.

Abbreviation Block := (@Block Transaction Trie).
Abbreviation World := (@World Transaction Trie).
Abbreviation M := (@M Transaction Trie).

Implicit Types (w : World) (b : Block) (l : loc).

(** Runs that touch one block.

    [steps m l b a b' put]: run in any world whose block [l] is [b], [m]
    returns [a], leaves block [l] as [b'], has handed the transactions [put]
    to the pool, and has changed nothing else. *)
Definition steps {A} (m : M A) l b (a : A) b' (put : list Transaction) : Prop :=
  ∀ w, blocks w !! l = Some b →
       m w = Ret a (mkWorld (<[l := b']> (blocks w)) (txPool w ++ put)).

(** The account [rewardCoinbase] starts from: the decoded record of the
    coinbase address, a zero record when the trie has none. *)
Definition decodedCoinbase b : Account + error :=
  match trie_Get (stateTrie b) (coinbase (header b)) with
  | Some v => proto_Unmarshal v
  | None => inl (mkAccount 0)
  end.

(** The block [rewardCoinbase] leaves and the error it returns. *)
Definition rewarded b : Block * option error :=
  match decodedCoinbase b with
  | inr err => (b, Some err)
  | inl account =>
    match proto_Marshal (mkAccount (wrap64 (Balance account + BlockReward))) with
    | inr err => (b, Some err)
    | inl bytes =>
      (with_stateTrie
         (trie_Put (stateTrie b) (coinbase (header b)) bytes) b, None)
    end
  end.

(** The state trie [rewardCoinbase] leaves. *)
Definition rewardedTrie b : Trie := stateTrie (rewarded b).1.

(** The indices the first loop records on the transactions [txs], run
    against the tries [st] and [tr]. *)
Definition invalidTxs (txs : list Transaction) (st tr : Trie) : list Z :=
  (executeLoop 0 txs st tr []).2.

(** The recorded indices, last to first, are in range and strictly
    descending. *)
Fixpoint descending_below (bound : Z) (pending : list Z) : Prop :=
  match pending with
  | [] => True
  | i :: rest => 0 ≤ i < bound ∧ descending_below i rest
  end.

(** The block [executeTransactions] leaves when the second loop yields
    [txs']. *)
Definition executed b (txs' : list Transaction) : Block :=
  with_transactions txs'
    (with_txsTrie
       (executeLoop 0 (transactions b) (stateTrie b) (txsTrie b) []).1.2
       (with_stateTrie
          (executeLoop 0 (transactions b) (stateTrie b) (txsTrie b) []).1.1
          b)).

(** [walk bs l path t]: the blocks of [path], starting with [l], have height
    zero and a parent each, the parent of the last being [t]; the first loop
    stops at [t], a block of positive height or a block with no parent. *)
Inductive walk (bs : gmap loc Block) : loc → list loc → loc → Prop :=
| walk_stop l b :
    bs !! l = Some b → 0 < height b ∨ parenetBlock b = None →
    walk bs l [] l
| walk_step l b parent path t :
    bs !! l = Some b → height b = 0 → parenetBlock b = Some parent →
    walk bs parent path t →
    walk bs l (l :: path) t.

End Summaries.

(** ** Getters, and the wire form

    The rest of core/block.go: the read accessors of [Block], and the
    conversions of a header and of a block to and from their protobuf
    messages. *)

(** Modelled from the spec: the message [corepb.BlockHeader], generated into
    core/pb, with the fields [BlockHeader.ToProto] fills: "exact integer
    widths for nonce/timestamp/chainID", byte strings for the rest. *)
Record pbBlockHeader : Type := mkPbBlockHeader {
  pb_Hash : list byte;
  pb_ParentHash : list byte;
  pb_StateRoot : list byte;
  pb_Nonce : Z;
  pb_Coinbase : list byte;
  pb_Timestamp : Z;
  pb_ChainID : Z
}.

(** [errors.New(text)]: an error that is none of the two error variables of
    the file and carries its text. *)
Definition errors_New (text : string) : error := ErrCollaborator text.

Definition not_a_header : string :=
  "Pb Message cannot be converted into BlockHeader".
Definition not_a_transaction : string :=
  "Pb Message cannot be converted into Transaction".
Definition not_a_block : string :=
  "Pb Message cannot be converted into Block".

Section Wire.

Context {Transaction Trie PbTransaction : Type}.

Abbreviation Block := (@Block Transaction Trie).
Abbreviation World := (@World Transaction Trie).
Abbreviation M := (@M Transaction Trie).

Notation "'do' x <- m ; k" := (bind m (λ x, k))
  (at level 10, x name, m at level 100, k at level 200).
Notation "m ;; k" := (bind m (λ _, k))
  (at level 100, k at level 200, right associativity).

(** Modelled from the spec: the message [corepb.Block], with the fields
    [Block.ToProto] fills. Its header and its transactions are pointers:
    [None] is a nil pointer. *)
Record pbBlock : Type := mkPbBlock {
  pb_Header : option pbBlockHeader;
  pb_Transactions : list (option PbTransaction)
}.

(** A [proto.Message]: a pointer to one of the three messages of core/pb
    ([None] for a nil pointer), or anything else, the nil interface
    included. *)
Inductive Message : Type :=
| MsgBlockHeader (m : option pbBlockHeader)
| MsgBlock (m : option pbBlock)
| MsgTransaction (m : option PbTransaction)
| MsgOther.

(** The conversions of a [*Transaction], of core/transaction.go:
    [tx.ToProto()], whose error the callers drop, and [FromProto] called on
    a new transaction, which yields the transaction or an error. *)
Class TxCodec : Type := {
  tx_ToProto : Transaction → Message;
  tx_FromProto : Message → Transaction + error
}.

Context `{!TxCodec}.

(** *** Getters *)

Definition Nonce (block : loc) : M Z :=
  do b <- load block; ret (nonce (header b)).

(** [Hash()] *)
Definition Block_Hash (block : loc) : M Hash :=
  do b <- load block; ret (hash (header b)).

Definition StateRoot (block : loc) : M Hash :=
  do b <- load block; ret (stateRoot (header b)).

Definition ParentHash (block : loc) : M Hash :=
  do b <- load block; ret (parentHash (header b)).

Definition ParentBlock (block : loc) : M (option loc) :=
  do b <- load block; ret (parenetBlock b).

Definition Height (block : loc) : M Z :=
  do b <- load block; ret (height b).

Definition Sealed (block : loc) : M bool :=
  do b <- load block; ret (sealed b).

(** *** Headers *)

(** [BlockHeader.ToProto]: the message and the error, which is always
    nil. *)
Definition BlockHeader_ToProto (hd : BlockHeader) : Message * option error :=
  (MsgBlockHeader
     (Some (mkPbBlockHeader (hash hd) (parentHash hd) (stateRoot hd)
                            (nonce hd) (coinbase hd) (timestamp hd)
                            (chainID hd))),
   None).

(** [BlockHeader.FromProto], on the header of [block]: the seven fields are
    assigned from the message; reading them off a nil pointer panics. *)
Definition BlockHeader_FromProto (block : loc) (msg : Message)
  : M (option error) :=
  match msg with
  | MsgBlockHeader m =>
    match m with
    | Some m =>
      store block
            (with_header
               (λ _, mkBlockHeader (pb_Hash m) (pb_ParentHash m)
                                   (pb_StateRoot m) (pb_Nonce m)
                                   (pb_Coinbase m) (pb_Timestamp m)
                                   (pb_ChainID m)));;
      ret None
    | None => panic nil_deref
    end
  | _ => ret (Some (errors_New not_a_header))
  end.

(** *** Blocks *)

(** The loop of [Block.ToProto]: [txs] are the messages appended so far. *)
Fixpoint toProtoLoop (transactions : list Transaction)
         (txs : list (option PbTransaction))
  : list (option PbTransaction) + error :=
  match transactions with
  | [] => inl txs
  | v :: rest =>
    match tx_ToProto v with
    | MsgTransaction tx => toProtoLoop rest (txs ++ [tx])
    | _ => inr (errors_New not_a_transaction)
    end
  end.

(** [Block.ToProto]: the message, or the error. *)
Definition Block_ToProto (block : loc) : M (Message + error) :=
  do b <- load block;
  match (BlockHeader_ToProto (header b)).1 with
  | MsgBlockHeader header =>
    match toProtoLoop (transactions b) [] with
    | inl txs => ret (inl (MsgBlock (Some (mkPbBlock header txs))))
    | inr err => ret (inr err)
    end
  | _ => ret (inr (errors_New not_a_header))
  end.

(** [new(BlockHeader)] *)
Definition new_BlockHeader : BlockHeader := mkBlockHeader [] [] [] 0 [] 0 0.

(** The loop of [Block.FromProto]: every message is decoded into a new
    transaction, which is appended to the transactions of the block; the
    first error ends the loop. *)
Fixpoint fromProtoLoop (block : loc) (msgs : list (option PbTransaction))
  : M (option error) :=
  match msgs with
  | [] => ret None
  | v :: rest =>
    match tx_FromProto (MsgTransaction v) with
    | inr err => ret (Some err)
    | inl tx =>
      store block (λ b, with_transactions (transactions b ++ [tx]) b);;
      fromProtoLoop block rest
    end
  end.

Definition Block_FromProto (block : loc) (msg : Message) : M (option error) :=
  match msg with
  | MsgBlock m =>
    store block (with_header (λ _, new_BlockHeader));;
    match m with
    | Some m =>
      do err <- BlockHeader_FromProto block (MsgBlockHeader (pb_Header m));
      match err with
      | Some err => ret (Some err)
      | None => fromProtoLoop block (pb_Transactions m)
      end
    | None => panic nil_deref
    end
  | _ => ret (Some (errors_New not_a_block))
  end.

End Wire.

Arguments Message : clear implicits.
Arguments pbBlock : clear implicits.
Arguments TxCodec : clear implicits.

(** ** What [executeTransactions] keeps

    [survivors invalid lenOfTxs idx txs]: of the transactions [txs], which
    sit at the indices [idx], [idx + 1], ... of a block of [lenOfTxs]
    transactions, those the second loop leaves in the block when the first
    loop has recorded [invalid]: the ones whose index is not recorded, and
    the one at index 0 when the block holds two transactions or more. *)
Fixpoint survivors {Transaction : Type} (invalid : list Z) (lenOfTxs idx : Z)
         (txs : list Transaction) : list Transaction :=
  match txs with
  | [] => []
  | tx :: rest =>
    if bool_decide (idx ∈ invalid ∧ ¬ (idx = 0 ∧ 2 ≤ lenOfTxs))
    then survivors invalid lenOfTxs (idx + 1) rest
    else tx :: survivors invalid lenOfTxs (idx + 1) rest
  end.

(** ** A reference implementation of the collaborators

    Small and executable: a trie is the list of its entries sorted by key and
    its root a 32-byte checksum of them; an account is stored as the eight
    bytes of its balance; a transaction moves a value between two accounts
    and fails to execute when the sender cannot pay. *)
Module Ref.

Definition digest (bs : list byte) : Hash :=
  be_bytes 32
    (fold_left (λ acc b, (acc * 1099511628211 + Z.of_N (Byte.to_N b) + 1)
                           mod 2 ^ 256)
               bs 14695981039346656037).

Definition trie : Type := list (list byte * list byte).

Fixpoint key_lt (a b : list byte) : bool :=
  match a, b with
  | [], [] => false
  | [], _ :: _ => true
  | _ :: _, [] => false
  | x :: a', y :: b' =>
    if (Byte.to_N x <? Byte.to_N y)%N then true
    else if (Byte.to_N y <? Byte.to_N x)%N then false
    else key_lt a' b'
  end.

Fixpoint get (t : trie) (k : list byte) : option (list byte) :=
  match t with
  | [] => None
  | (k', v) :: t' => if bool_decide (k = k') then Some v else get t' k
  end.

Fixpoint put (t : trie) (k v : list byte) : trie :=
  match t with
  | [] => [(k, v)]
  | (k', v') :: t' =>
    if bool_decide (k = k') then (k, v) :: t'
    else if key_lt k k' then (k, v) :: t
    else (k', v') :: put t' k v
  end.

Definition root (t : trie) : Hash :=
  digest (flat_map (λ e, byte_of_Z (Z.of_nat (length e.1)) :: e.1
                         ++ byte_of_Z (Z.of_nat (length e.2)) :: e.2) t).

Definition be_decode (bs : list byte) : Z :=
  fold_left (λ acc b, acc * 256 + Z.of_N (Byte.to_N b)) bs 0.

Definition marshal (a : Account) : list byte + error :=
  inl (be_bytes 8 (Balance a)).

Definition unmarshal (bs : list byte) : Account + error :=
  if bool_decide (length bs = 8%nat) then inl (mkAccount (be_decode bs))
  else inr (ErrCollaborator "proto: cannot parse the account").

Record transfer : Type := mkTransfer {
  sender : Address;
  recipient : Address;
  value : Z
}.

Definition transfer_hash (tx : transfer) : Hash :=
  digest (sender tx ++ recipient tx ++ be_bytes 8 (value tx)).

Definition account_at (t : trie) (a : Address) : Account + error :=
  match get t a with
  | Some v => unmarshal v
  | None => inl (mkAccount 0)
  end.

Definition execute (tx : transfer) (st tr : trie)
  : trie * trie * option error :=
  match account_at st (sender tx) with
  | inr err => (st, tr, Some err)
  | inl from =>
    if Balance from <? value tx then
      (st, tr, Some (ErrCollaborator "insufficient balance"))
    else
      let st1 := put st (sender tx) (be_bytes 8 (Balance from - value tx)) in
      match account_at st1 (recipient tx) with
      | inr err => (st, tr, Some err)
      | inl to =>
        (put st1 (recipient tx) (be_bytes 8 (wrap64 (Balance to + value tx))),
         put tr (transfer_hash tx) (be_bytes 8 (value tx)),
         None)
      end
  end.

Definition verify (tx : transfer) : option error :=
  if bool_decide (sender tx = []) then
    Some (ErrCollaborator "invalid transaction signer")
  else None.

Definition collaborators : Collaborators transfer trie := {|
  tx_Hash := transfer_hash;
  tx_Execute := execute;
  tx_Verify := verify;
  trie_Get := get;
  trie_Put := put;
  trie_RootHash := root;
  trie_Clone := λ t, inl t;
  proto_Unmarshal := unmarshal;
  proto_Marshal := marshal;
  sha3_256 := digest
|}.

#[local] Existing Instance collaborators.

Definition miner : Address := [x01].
Definition alice : Address := [x0a].
Definition bob : Address := [x0b].

Definition world (bs : list (loc * @Block transfer trie))
  : @World transfer trie :=
  mkWorld (list_to_map bs) [].

(** A block of the miner as [NewBlock] builds it. *)
Definition new_block (parentHash : Hash) (stateTrie : trie)
  : @Block transfer trie :=
  NewBlock 1500000000 1 miner parentHash 0 stateTrie [].

(** The result and the final world of a run. *)
Definition result {A} (o : @outcome transfer trie A) : option A :=
  match o with Ret a _ => Some a | _ => None end.
Definition final {A} (o : @outcome transfer trie A)
  : option (@World transfer trie) :=
  match o with Ret _ w => Some w | _ => None end.

(** A fresh block on an empty state. *)
Definition b_fresh : @Block transfer trie := new_block [] [].
Definition w_fresh : @World transfer trie := world [(1%positive, b_fresh)].

(** The block [Seal] makes of a new block on an empty state. *)
Definition mined (parentHash : Hash) : @Block transfer trie :=
  let b := new_block parentHash [] in
  match Seal 1%positive (world [(1%positive, b)]) with
  | Ret _ w => default b (blocks w !! 1%positive)
  | _ => b
  end.

(** A sealed block. *)
Definition b_sealed : @Block transfer trie := mined [].
Definition w_sealed : @World transfer trie := world [(1%positive, b_sealed)].

(** Two transactions on a state where the miner owns 50: the first cannot
    be paid by its sender, the second can. *)
Definition t_poor : transfer := mkTransfer alice bob 100.
Definition t_ok : transfer := mkTransfer miner bob 5.
Definition funded : trie := put [] miner (be_bytes 8 50).
Definition b_first_fails : @Block transfer trie :=
  with_transactions [t_poor; t_ok] (new_block [] funded).
Definition w_first_fails : @World transfer trie :=
  world [(1%positive, b_first_fails)].
Definition b_last_fails : @Block transfer trie :=
  with_transactions [t_ok; t_poor] (new_block [] funded).
Definition w_last_fails : @World transfer trie :=
  world [(1%positive, b_last_fails)].

(** A state whose record at the coinbase address does not decode. *)
Definition corrupt : trie := put [] miner [x01].
Definition b_corrupt : @Block transfer trie := new_block [] corrupt.
Definition w_corrupt : @World transfer trie := world [(1%positive, b_corrupt)].

(** Four sealed blocks, B on A on X on G, none linked yet. *)
Definition lG : loc := 1%positive.
Definition lX : loc := 2%positive.
Definition lA : loc := 3%positive.
Definition lB : loc := 4%positive.
Definition bG : @Block transfer trie := mined [].
Definition bX : @Block transfer trie := mined (hash (header bG)).
Definition bA : @Block transfer trie := mined (hash (header bX)).
Definition bB : @Block transfer trie := mined (hash (header bA)).
Definition w_unlinked : @World transfer trie :=
  world [(lG, bG); (lX, bX); (lA, bA); (lB, bB)].

(** B linked to A while A had no parent, then X linked to G and A to X. *)
Definition w_relink : @World transfer trie :=
  world [(lG, bG);
         (lX, with_height 1 (with_parenetBlock (Some lG) bX));
         (lA, with_height 2 (with_parenetBlock (Some lX) bA));
         (lB, with_height 1 (with_parenetBlock (Some lA) bB))].

(** G, A on G with its height not resolved yet, and B on A, not linked. *)
Definition bA_on_G : @Block transfer trie :=
  with_parenetBlock (Some lG) (mined (hash (header bG))).
Definition bB_on_A : @Block transfer trie := mined (hash (header bA_on_G)).
Definition w_chain : @World transfer trie :=
  world [(lG, bG); (lA, bA_on_G); (lB, bB_on_A)].

(** A chain whose consensus backend accepts every block. *)
Definition bc_accept : @BlockChain transfer trie := λ _ _, None.

(** A wire form of the transfers: the three fields; a nil message and a
    value that is not a [uint64] do not decode. *)
Definition pbTransfer : Type := (list byte * list byte * Z)%type.

Definition transfer_ToProto (tx : transfer) : Message pbTransfer :=
  MsgTransaction (Some (sender tx, recipient tx, value tx)).

Definition transfer_FromProto (msg : Message pbTransfer) : transfer + error :=
  match msg with
  | MsgTransaction (Some (s, r, v)) =>
    if bool_decide (0 ≤ v < 2 ^ 64) then inl (mkTransfer s r v)
    else inr (ErrCollaborator "proto: the value is out of range")
  | _ => inr (errors_New not_a_transaction)
  end.

Definition codec : TxCodec transfer pbTransfer := {|
  tx_ToProto := transfer_ToProto;
  tx_FromProto := transfer_FromProto
|}.

(** A block with one transaction that its sender can pay, and the world
    [Seal] makes of it. *)
Definition b_paying : @Block transfer trie :=
  with_transactions [t_ok] (new_block [] funded).
Definition w_paying : @World transfer trie := world [(1%positive, b_paying)].
Definition w_paid : @World transfer trie :=
  default w_paying (final (Seal 1%positive w_paying)).
Definition b_paid : @Block transfer trie :=
  default b_paying (blocks w_paid !! 1%positive).

(** A copy of that block: the sealed header and the transactions, unsealed,
    on the tries as they were before [Seal]. *)
Definition b_received : @Block transfer trie :=
  mkBlock (header b_paid) (transactions b_paid) false 0 None funded [].
Definition w_received : @World transfer trie :=
  world [(1%positive, b_received)].

(** G, X on G with its height resolved, and A on X, not linked. *)
Definition w_resolved : @World transfer trie :=
  world [(lG, bG);
         (lX, with_height 1 (with_parenetBlock (Some lG) bX));
         (lA, bA)].

(** The world after B is linked to A in [w_chain]. *)
Definition w_chain_linked : @World transfer trie :=
  default w_chain (final (LinkParentBlock 3 lB lA w_chain)).

End Ref.

(** ** Properties *)

Section Properties.

Context {Transaction Trie : Type} `{!Collaborators Transaction Trie}.

Abbreviation Block := (@Block Transaction Trie).
Abbreviation World := (@World Transaction Trie).
Abbreviation BlockChain := (@BlockChain Transaction Trie).
Abbreviation M := (@M Transaction Trie).

Implicit Types (w : World) (b p : Block) (l : loc) (bs : gmap loc Block).

(** *** Reading and writing the heap *)

Lemma load_Some w l b : blocks w !! l = Some b → load l w = Ret b w.
Proof. unfold load. by intros ->. Qed.

Lemma store_Some w l b f :
  blocks w !! l = Some b → store l f w = Ret tt (with_block l (f b) w).
Proof. unfold store. by intros ->. Qed.

Lemma lookup_with_block w l b : blocks (with_block l b w) !! l = Some b.
Proof. apply lookup_insert_eq. Qed.

Lemma lookup_with_block_ne w l l' b :
  l ≠ l' → blocks (with_block l b w) !! l' = blocks w !! l'.
Proof. intros. by apply lookup_insert_ne. Qed.

Lemma with_block_id w l b : blocks w !! l = Some b → with_block l b w = w.
Proof.
  intros Hb. destruct w as [bs pl]. unfold with_block; simpl in *.
  by rewrite insert_id.
Qed.

Lemma with_block_twice w l b1 b2 :
  with_block l b2 (with_block l b1 w) = with_block l b2 w.
Proof. unfold with_block; simpl. by rewrite insert_insert_eq. Qed.

(** *** The mutators ([SetNonce], [SetTimestamp], [AddTransactions]) *)


(** *** [Seal] on a sealed block *)

(** C7. A further [Seal] of a sealed block returns at once and leaves the
    world as it was: hash, state root, transactions, tries and the sealed
    flag of the block (of every block) keep their values. *)
Theorem Seal_sealed_noop w l b :
  blocks w !! l = Some b → sealed b = true → Seal l w = Ret tt w.
Proof.
  intros Hb Hs. unfold Seal, bind. by rewrite (load_Some _ _ _ Hb), Hs.
Qed.

(** *** [HashBlock] *)

Lemma length_be_bytes n v : length (be_bytes n v) = n.
Proof. induction n as [|n IH]; simpl; [done | by rewrite IH]. Qed.

Lemma HashBlock_Some w l b :
  blocks w !! l = Some b → HashBlock l w = Ret (sha3_256 (hashInput b)) w.
Proof. intros Hb. unfold HashBlock, bind. by rewrite (load_Some _ _ _ Hb). Qed.

(** C5. [HashBlock] digests, in this order, the parent hash, the nonce as 8
    bytes, the coinbase address, the timestamp as 8 bytes and the hash of
    every transaction in list order; it changes nothing; two blocks that
    agree on these inputs get the same digest; the state root has no part
    in it. *)
Theorem HashBlock_inputs w l b :
  blocks w !! l = Some b →
  HashBlock l w
    = Ret (sha3_256 (parentHash (header b) ++ FromUint64 (nonce (header b))
                       ++ coinbase (header b)
                       ++ FromInt64 (timestamp (header b))
                       ++ concat (map tx_Hash (transactions b)))) w ∧
  length (FromUint64 (nonce (header b))) = 8%nat ∧
  length (FromInt64 (timestamp (header b))) = 8%nat ∧
  (∀ w' l' b',
      blocks w' !! l' = Some b' →
      parentHash (header b') = parentHash (header b) →
      nonce (header b') = nonce (header b) →
      coinbase (header b') = coinbase (header b) →
      timestamp (header b') = timestamp (header b) →
      map tx_Hash (transactions b') = map tx_Hash (transactions b) →
      ∃ d, HashBlock l w = Ret d w ∧ HashBlock l' w' = Ret d w') ∧
  (∀ r, ∃ d,
      HashBlock l w = Ret d w ∧
      HashBlock l (with_block l (with_header (with_stateRoot r) b) w)
        = Ret d (with_block l (with_header (with_stateRoot r) b) w)).
Proof.
  intros Hb. rewrite (HashBlock_Some _ _ _ Hb).
  split; [done|].
  split; [apply length_be_bytes|].
  split; [apply length_be_bytes|].
  split.
  - intros w' l' b' Hb' Hp Hn Hc Ht Htx.
    eexists; split; [done|].
    rewrite (HashBlock_Some _ _ _ Hb'). unfold hashInput.
    by rewrite Hp, Hn, Hc, Ht, Htx.
  - intros r. eexists; split; [done|].
    by rewrite (HashBlock_Some _ _ _ (lookup_with_block _ _ _)).
Qed.

(** *** [LinkParentBlock] on a mismatch *)

(** C4. When the parent hash of the block differs from the hash of the
    parent, [LinkParentBlock] returns false and the world is the one before
    the call: trie, parent reference and height of the block, and the parent
    block, are untouched. *)
Theorem LinkParentBlock_mismatch fuel w (lb lp : loc) b p :
  blocks w !! lb = Some b →
  blocks w !! lp = Some p →
  parentHash (header b) ≠ hash (header p) →
  LinkParentBlock fuel lb lp w = Ret false w.
Proof.
  intros Hb Hp Hne. unfold LinkParentBlock, bind.
  rewrite (load_Some _ _ _ Hb), (load_Some _ _ _ Hp).
  unfold Hash_Equals. by rewrite bool_decide_eq_false_2.
Qed.

(** *** Verification *)

Lemma verifyTransactions_None (txs : list Transaction) :
  verifyTransactions txs = None ↔ Forall (λ tx, tx_Verify tx = None) txs.
Proof.
  induction txs as [|tx txs IH]; simpl.
  - split; [constructor | done].
  - destruct (tx_Verify tx) eqn:E.
    + split; [done|]. inversion 1; congruence.
    + rewrite IH. split; [by constructor | by inversion 1].
Qed.

Lemma verifyTransactions_first (txs : list Transaction) err :
  verifyTransactions txs = Some err ↔
  ∃ (i : nat) tx, txs !! i = Some tx ∧ tx_Verify tx = Some err ∧
                  Forall (λ tx', tx_Verify tx' = None) (take i txs).
Proof.
  induction txs as [|tx txs IH]; simpl.
  - split; [done|]. by intros (i & tx & ? & _).
  - destruct (tx_Verify tx) eqn:E.
    + split.
      * intros [= ->]. exists 0%nat, tx. by repeat split.
      * intros (i & tx' & Hi & Hv & Hpre). destruct i as [|i]; simpl in *.
        -- congruence.
        -- inversion Hpre; congruence.
    + rewrite IH. split.
      * intros (i & tx' & Hi & Hv & Hpre). exists (S i), tx'.
        repeat split; try done. simpl. by constructor.
      * intros (i & tx' & Hi & Hv & Hpre). destruct i as [|i]; simpl in *.
        -- congruence.
        -- exists i, tx'. repeat split; try done. by inversion Hpre.
Qed.

Lemma VerifyHash_Some w l b (bc : BlockChain) :
  blocks w !! l = Some b →
  VerifyHash l bc w =
    Ret (match bc w l with
         | Some err => Some err
         | None =>
           if bool_decide (sha3_256 (hashInput b) = hash (header b))
           then verifyTransactions (transactions b)
           else Some ErrInvalidBlockHash
         end) w.
Proof.
  intros Hb. unfold VerifyHash, bind, consensus_VerifyBlock.
  destruct (bc w l); [done|].
  rewrite (HashBlock_Some _ _ _ Hb), (load_Some _ _ _ Hb).
  unfold Hash_Equals. by case_bool_decide.
Qed.


Lemma steps_ret {A} (a : A) l b : steps (ret a) l b a b [].
Proof.
  intros w Hb. unfold ret. f_equal. destruct w as [bs pl]; simpl in *.
  by rewrite insert_id, app_nil_r.
Qed.

Lemma steps_bind {A B} (m : M A) (f : A → M B) l b a b1 put1 c b2 put2 :
  steps m l b a b1 put1 → steps (f a) l b1 c b2 put2 →
  steps (bind m f) l b c b2 (put1 ++ put2).
Proof.
  intros Hm Hf w Hb. unfold bind. rewrite (Hm w Hb).
  rewrite (Hf _ (lookup_insert_eq _ _ _)); simpl.
  by rewrite insert_insert_eq, app_assoc.
Qed.

Lemma steps_load l b : steps (load l) l b b b [].
Proof.
  intros w Hb. rewrite (load_Some _ _ _ Hb). f_equal.
  destruct w as [bs pl]; simpl in *. by rewrite insert_id, app_nil_r.
Qed.

Lemma steps_store l b f : steps (store l f) l b tt (f b) [].
Proof.
  intros w Hb. rewrite (store_Some _ _ _ _ Hb). unfold with_block.
  by rewrite app_nil_r.
Qed.

Lemma steps_lookup {A} (m : M A) l b a b' put w :
  steps m l b a b' put → blocks w !! l = Some b →
  ∃ w', m w = Ret a w' ∧ blocks w' !! l = Some b' ∧
        txPool w' = txPool w ++ put ∧
        ∀ l', l' ≠ l → blocks w' !! l' = blocks w !! l'.
Proof.
  intros Hm Hb. eexists; split; [by apply Hm|]. simpl.
  split; [apply lookup_insert_eq|]. split; [done|].
  intros l' Hne. by apply lookup_insert_ne.
Qed.

(** *** [rewardCoinbase] *)

Lemma rewardCoinbase_steps l b :
  steps (rewardCoinbase l) l b (rewarded b).2 (rewarded b).1 [].
Proof.
  unfold rewardCoinbase, rewarded.
  replace (@nil Transaction) with (@nil Transaction ++ []) by done.
  eapply steps_bind; [apply steps_load|]. simpl.
  fold (decodedCoinbase b).
  destruct (decodedCoinbase b) as [account|err]; [|apply steps_ret].
  destruct (proto_Marshal _) as [bytes|err]; [|apply steps_ret].
  replace (@nil Transaction) with (@nil Transaction ++ []) by done.
  eapply steps_bind; [apply steps_store | apply steps_ret].
Qed.

Lemma rewarded_frame b :
  header (rewarded b).1 = header b ∧
  transactions (rewarded b).1 = transactions b ∧
  sealed (rewarded b).1 = sealed b ∧
  height (rewarded b).1 = height b ∧
  parenetBlock (rewarded b).1 = parenetBlock b ∧
  txsTrie (rewarded b).1 = txsTrie b.
Proof.
  unfold rewarded.
  destruct (decodedCoinbase b) as [account|err]; [|done].
  by destruct (proto_Marshal _).
Qed.

Lemma rewarded_with_hash h b :
  rewarded (with_header (with_hash h) b)
  = (with_header (with_hash h) (rewarded b).1, (rewarded b).2).
Proof.
  unfold rewarded, decodedCoinbase; simpl.
  destruct (match trie_Get (stateTrie b) (coinbase (header b)) with
            | Some v => proto_Unmarshal v
            | None => inl (mkAccount 0)
            end) as [account|err]; [|done].
  by destruct (proto_Marshal _).
Qed.

(** *** [executeTransactions] *)

Lemma descending_below_mono bound bound' pending :
  bound ≤ bound' → descending_below bound pending →
  descending_below bound' pending.
Proof. destruct pending; simpl; [done|]. intros ? [? ?]. split; [lia|done]. Qed.

Lemma executeLoop_descending (txs : list Transaction) :
  ∀ idx st tr inv,
    0 ≤ idx → descending_below idx (rev inv) →
    descending_below (idx + Z.of_nat (length txs))
                     (rev (executeLoop idx txs st tr inv).2).
Proof.
  induction txs as [|tx txs IH]; intros idx st tr inv Hidx Hinv.
  - simpl. by rewrite Z.add_0_r.
  - assert (idx + Z.of_nat (length (tx :: txs))
            = (idx + 1) + Z.of_nat (length txs)) as -> by (simpl length; lia).
    cbn [executeLoop].
    destruct (tx_Execute tx st tr) as [[st' tr'] err].
    apply IH; [lia|]. destruct err.
    + rewrite rev_unit. simpl. split; [lia|done].
    + eapply descending_below_mono; [|done]. lia.
Qed.

Lemma invalidTxs_descending txs st tr :
  descending_below (Z.of_nat (length txs)) (rev (invalidTxs txs st tr)).
Proof. apply (executeLoop_descending txs 0 st tr []); simpl; done. Qed.

Lemma index_in_range (txs : list Transaction) idx w :
  0 ≤ idx < Z.of_nat (length txs) →
  ∃ tx, txs !! Z.to_nat idx = Some tx ∧ index txs idx w = Ret tx w.
Proof.
  intros Hr. destruct (lookup_lt_is_Some_2 txs (Z.to_nat idx)) as [tx Htx];
    [lia|].
  exists tx. split; [done|]. unfold index.
  destruct (Z.ltb_spec idx 0); [lia|]. by rewrite Htx.
Qed.

Lemma slice_to_in_range (txs : list Transaction) hi w :
  0 ≤ hi ≤ Z.of_nat (length txs) →
  slice_to txs hi w = Ret (take (Z.to_nat hi) txs) w.
Proof.
  intros Hr. unfold slice_to.
  destruct (Z.ltb_spec hi 0); [lia|].
  destruct (Z.ltb_spec (Z.of_nat (length txs)) hi); [lia|done].
Qed.

Lemma slice_from_in_range (txs : list Transaction) lo w :
  0 ≤ lo ≤ Z.of_nat (length txs) →
  slice_from txs lo w = Ret (drop (Z.to_nat lo) txs) w.
Proof.
  intros Hr. unfold slice_from.
  destruct (Z.ltb_spec lo 0); [lia|].
  destruct (Z.ltb_spec (Z.of_nat (length txs)) lo); [lia|done].
Qed.

(** One turn of the second loop, on an index in range. *)
Lemma removeLoop_cons idx pending lenOfTxs (txs : list Transaction) tx w :
  0 ≤ idx → txs !! Z.to_nat idx = Some tx →
  removeLoop (idx :: pending) lenOfTxs txs w =
  removeLoop pending lenOfTxs
             (if idx =? lenOfTxs - 1 then take (Z.to_nat idx) txs
              else if idx =? 0 then txs
              else take (Z.to_nat idx) txs ++ drop (Z.to_nat (idx + 1)) txs)
             (with_txPool (txPool w ++ [tx]) w).
Proof.
  intros Hidx Htx. pose proof (lookup_lt_Some _ _ _ Htx) as Hlt.
  simpl. unfold bind at 1.
  destruct (index_in_range txs idx w) as (tx' & Htx' & ->); [lia|].
  assert (tx' = tx) as -> by congruence.
  unfold bind at 1. unfold txPool_Put.
  destruct (idx =? lenOfTxs - 1).
  - unfold bind. by rewrite slice_to_in_range by lia.
  - destruct (idx =? 0) eqn:E0.
    + unfold bind. rewrite slice_from_in_range by lia. by rewrite drop_0.
    + unfold bind. rewrite slice_to_in_range by lia.
      by rewrite slice_from_in_range by lia.
Qed.

(** The second loop never indexes or slices out of range: it returns, with
    one transaction handed to the pool for every pending index. *)
Lemma removeLoop_returns pending :
  ∀ (txs : list Transaction) lenOfTxs,
    descending_below (Z.of_nat (length txs)) pending →
    ∃ txs' put,
      (∀ w, removeLoop pending lenOfTxs txs w
            = Ret txs' (with_txPool (txPool w ++ put) w)) ∧
      length put = length pending.
Proof.
  induction pending as [|idx pending IH]; intros txs lenOfTxs Hd.
  - exists txs, []. split; [|done]. intros w. simpl.
    unfold ret, with_txPool. rewrite app_nil_r. by destruct w.
  - destruct Hd as [[H0 Hlt] Hd].
    destruct (lookup_lt_is_Some_2 txs (Z.to_nat idx)) as [tx Htx]; [lia|].
    set (txs1 := if idx =? lenOfTxs - 1 then take (Z.to_nat idx) txs
                 else if idx =? 0 then txs
                 else take (Z.to_nat idx) txs ++ drop (Z.to_nat (idx + 1)) txs).
    assert (idx ≤ Z.of_nat (length txs1)) as Hlen.
    { subst txs1. destruct (idx =? lenOfTxs - 1).
      - rewrite length_take. lia.
      - destruct (idx =? 0); [lia|].
        rewrite length_app, length_take, length_drop. lia. }
    destruct (IH txs1 lenOfTxs) as (txs' & put & Hrun & Hput).
    { by eapply descending_below_mono. }
    exists txs', (tx :: put). split; [|by simpl; rewrite Hput].
    intros w. rewrite (removeLoop_cons _ _ _ _ tx) by done.
    fold txs1. rewrite Hrun.
    unfold with_txPool; simpl. by rewrite <- app_assoc.
Qed.

Lemma executeTransactions_steps l b txs' put :
  (∀ w, removeLoop (rev (invalidTxs (transactions b) (stateTrie b) (txsTrie b)))
                   (Z.of_nat (length (transactions b))) (transactions b) w
        = Ret txs' (with_txPool (txPool w ++ put) w)) →
  steps (executeTransactions l) l b tt (executed b txs') put.
Proof.
  intros Hloop w Hb. unfold executeTransactions, executed, invalidTxs in *.
  unfold bind at 1. rewrite (load_Some _ _ _ Hb).
  destruct (executeLoop 0 (transactions b) (stateTrie b) (txsTrie b) [])
    as [[st tr] inv]; simpl in *.
  unfold bind at 1. rewrite (store_Some _ _ _ _ Hb).
  unfold bind at 1. rewrite Hloop.
  erewrite store_Some by apply lookup_insert_eq.
  unfold with_block, with_txPool; simpl. by rewrite insert_insert_eq.
Qed.

(** [executeTransactions] always returns. *)
Lemma executeTransactions_returns l b :
  ∃ txs' put,
    steps (executeTransactions l) l b tt (executed b txs') put ∧
    length put
      = length (invalidTxs (transactions b) (stateTrie b) (txsTrie b)) ∧
    (invalidTxs (transactions b) (stateTrie b) (txsTrie b) = [] →
     txs' = transactions b ∧ put = []).
Proof.
  set (inv := invalidTxs (transactions b) (stateTrie b) (txsTrie b)).
  destruct (removeLoop_returns (rev inv) (transactions b)
              (Z.of_nat (length (transactions b))))
    as (txs' & put & Hrun & Hlen); [apply invalidTxs_descending|].
  exists txs', put. split; [|split].
  - by apply executeTransactions_steps.
  - by rewrite Hlen, length_rev.
  - intros Hinv. rewrite Hinv in Hrun. specialize (Hrun (mkWorld ∅ [])).
    simpl in Hrun. unfold ret in Hrun. inversion Hrun as [[Htxs Hpl]].
    split; [done|]. simpl in Hpl. apply (app_inv_head []).
    by rewrite app_nil_r.
Qed.

(** *** [HashBlockStateRoot] and [Seal] *)

(** [HashBlockStateRoot] always returns, whatever [rewardCoinbase] returned:
    the root of the trie left by the reward and the execution. *)
Lemma HashBlockStateRoot_returns l b :
  ∃ b' put,
    steps (HashBlockStateRoot l) l b (trie_RootHash (stateTrie b')) b' put ∧
    header b' = header b ∧ sealed b' = sealed b ∧
    height b' = height b ∧ parenetBlock b' = parenetBlock b ∧
    stateTrie b'
      = (executeLoop 0 (transactions b) (rewardedTrie b) (txsTrie b) []).1.1 ∧
    length put
      = length (invalidTxs (transactions b) (rewardedTrie b) (txsTrie b)) ∧
    (invalidTxs (transactions b) (rewardedTrie b) (txsTrie b) = [] →
     transactions b' = transactions b ∧ put = []).
Proof.
  destruct (rewarded_frame b) as (Hh & Ht & Hs & Hg & Hp & Hx).
  destruct (executeTransactions_returns l (rewarded b).1)
    as (txs' & put & Hrun & Hlen & Hnone).
  rewrite Ht, Hx in Hlen, Hnone. fold (rewardedTrie b) in Hlen, Hnone.
  exists (executed (rewarded b).1 txs'), put. split.
  - unfold HashBlockStateRoot.
    replace put with ([] ++ put ++ [] ++ []) by by rewrite !app_nil_r.
    eapply steps_bind; [apply rewardCoinbase_steps|].
    eapply steps_bind; [apply Hrun|].
    eapply steps_bind; [apply steps_load | apply steps_ret].
  - unfold executed; simpl. rewrite Ht, Hx. fold (rewardedTrie b).
    split_and!; try done; intros Hinv; by destruct (Hnone Hinv).
Qed.

(** [Seal] of an unsealed block always returns; the block it leaves. *)
Lemma Seal_unsealed_returns l b :
  sealed b = false →
  ∃ b1 put,
    steps (Seal l) l b tt b1 put ∧
    hash (header b1) = sha3_256 (hashInput b) ∧
    stateRoot (header b1) = trie_RootHash (stateTrie b1) ∧
    sealed b1 = true ∧
    parentHash (header b1) = parentHash (header b) ∧
    nonce (header b1) = nonce (header b) ∧
    coinbase (header b1) = coinbase (header b) ∧
    timestamp (header b1) = timestamp (header b) ∧
    stateTrie b1
      = (executeLoop 0 (transactions b) (rewardedTrie b) (txsTrie b) []).1.1 ∧
    length put
      = length (invalidTxs (transactions b) (rewardedTrie b) (txsTrie b)) ∧
    (invalidTxs (transactions b) (rewardedTrie b) (txsTrie b) = [] →
     transactions b1 = transactions b ∧ put = []).
Proof.
  intros Hs.
  set (bh := with_header (with_hash (sha3_256 (hashInput b))) b).
  destruct (HashBlockStateRoot_returns l bh)
    as (b' & put & Hrun & Hh & _ & _ & _ & Hst & Hlen & Hnone).
  assert (rewardedTrie bh = rewardedTrie b) as Hrt.
  { unfold rewardedTrie, bh. by rewrite rewarded_with_hash. }
  rewrite Hrt in Hst, Hlen, Hnone. simpl in Hst, Hlen, Hnone.
  exists (with_sealed true
            (with_header (with_stateRoot (trie_RootHash (stateTrie b'))) b')),
         put.
  split.
  - intros w Hb. unfold Seal. unfold bind at 1.
    rewrite (load_Some _ _ _ Hb), Hs.
    unfold bind at 1. rewrite (HashBlock_Some _ _ _ Hb).
    unfold bind at 1. rewrite (store_Some _ _ _ _ Hb). fold bh.
    unfold bind at 1. rewrite (Hrun _ (lookup_with_block _ _ _)).
    unfold bind. erewrite store_Some by apply lookup_insert_eq.
    erewrite store_Some by apply lookup_with_block.
    unfold with_block; simpl. by rewrite !insert_insert_eq.
  - simpl. rewrite Hh. simpl. split_and!; done.
Qed.

(** [VerifyStateRoot] always returns: the root [HashBlockStateRoot] returns
    is compared with the stored one. *)
Lemma VerifyStateRoot_returns w l b :
  blocks w !! l = Some b →
  ∃ w' b',
    HashBlockStateRoot l w = Ret (trie_RootHash (stateTrie b')) w' ∧
    blocks w' !! l = Some b' ∧
    stateTrie b'
      = (executeLoop 0 (transactions b) (rewardedTrie b) (txsTrie b) []).1.1 ∧
    VerifyStateRoot l w
    = Ret (if bool_decide (trie_RootHash (stateTrie b') = stateRoot (header b))
           then None else Some ErrInvalidBlockStateRoot) w'.
Proof.
  intros Hb.
  destruct (HashBlockStateRoot_returns l b)
    as (b' & put & Hrun & Hh & _ & _ & _ & Hst & _).
  destruct (steps_lookup _ _ _ _ _ _ _ Hrun Hb) as (w' & HR & Hb' & _ & _).
  exists w', b'. split_and!; try done.
  unfold VerifyStateRoot, bind. rewrite HR, (load_Some _ _ _ Hb').
  unfold Hash_Equals. rewrite Hh. by case_bool_decide.
Qed.

(** C9. [Verify] is [VerifyHash] then [VerifyStateRoot]; the stages of
    [VerifyHash] are the consensus check (its error returned as it is), the
    comparison of the recomputed [HashBlock] with the stored hash
    ([ErrInvalidBlockHash] on a mismatch), and the verification of the
    transactions in list order (the first error returned); [VerifyStateRoot]
    compares the root [HashBlockStateRoot] returns with the stored state
    root. The first failing stage ends the call with the world untouched by
    later stages, and [Verify] returns no error exactly when every stage
    passes. *)
Theorem Verify_stages w l b (bc : BlockChain) :
  blocks w !! l = Some b →
  Verify l bc w =
    match bc w l with
    | Some err => Ret (Some err) w
    | None =>
      if bool_decide (sha3_256 (hashInput b) = hash (header b)) then
        match verifyTransactions (transactions b) with
        | Some err => Ret (Some err) w
        | None => VerifyStateRoot l w
        end
      else Ret (Some ErrInvalidBlockHash) w
    end ∧
  (∀ err, verifyTransactions (transactions b) = Some err ↔
          ∃ (i : nat) tx,
            transactions b !! i = Some tx ∧ tx_Verify tx = Some err ∧
            Forall (λ tx', tx_Verify tx' = None) (take i (transactions b))) ∧
  (∀ w', Verify l bc w = Ret None w' ↔
         bc w l = None ∧
         sha3_256 (hashInput b) = hash (header b) ∧
         Forall (λ tx, tx_Verify tx = None) (transactions b) ∧
         VerifyStateRoot l w = Ret None w') ∧
  (∃ w' b',
      HashBlockStateRoot l w = Ret (trie_RootHash (stateTrie b')) w' ∧
      blocks w' !! l = Some b' ∧
      VerifyStateRoot l w
      = Ret (if bool_decide (trie_RootHash (stateTrie b')
                             = stateRoot (header b))
             then None else Some ErrInvalidBlockStateRoot) w').
Proof.
  intros Hb.
  assert (Verify l bc w =
    match bc w l with
    | Some err => Ret (Some err) w
    | None =>
      if bool_decide (sha3_256 (hashInput b) = hash (header b)) then
        match verifyTransactions (transactions b) with
        | Some err => Ret (Some err) w
        | None => VerifyStateRoot l w
        end
      else Ret (Some ErrInvalidBlockHash) w
    end) as HV.
  { unfold Verify, bind. rewrite (VerifyHash_Some _ _ _ _ Hb).
    destruct (bc w l); [done|]. case_bool_decide; [|done].
    by destruct (verifyTransactions (transactions b)). }
  split; [exact HV|]. split; [intros; apply verifyTransactions_first|].
  split; [|by destruct (VerifyStateRoot_returns w l b Hb)
                as (w' & b' & ? & ? & _ & ?); exists w', b'].
  intros w'. rewrite HV, <- verifyTransactions_None.
  destruct (bc w l) as [e|]; [split; [done | by intros [? _]]|].
  case_bool_decide as Hh; [|split; [done | by intros (_ & ? & _)]].
  destruct (verifyTransactions (transactions b)) as [e|].
  - split; [done | by intros (_ & _ & ? & _)].
  - split; [by intros -> | by intros (_ & _ & _ & ?)].
Qed.

(** C10. [Seal] stores the digest of the block as it stands before the
    reward and the execution: the header inputs and the transactions of the
    block before the call. When every transaction executes (no index is
    recorded), the transaction list is unchanged and [HashBlock] recomputed
    after [Seal] returns the stored hash. In general [HashBlock] recomputed
    after [Seal] digests the same header inputs followed by the hashes of
    the transactions left in the block, so after a removal the stored hash
    is the one of the list before the removal. *)
Theorem Seal_hash_of_initial_transactions w l b :
  blocks w !! l = Some b →
  sealed b = false →
  ∃ w1 b1,
    Seal l w = Ret tt w1 ∧ blocks w1 !! l = Some b1 ∧
    hash (header b1)
      = sha3_256 (parentHash (header b) ++ FromUint64 (nonce (header b))
                    ++ coinbase (header b) ++ FromInt64 (timestamp (header b))
                    ++ concat (map tx_Hash (transactions b))) ∧
    HashBlock l w1
      = Ret (sha3_256 (parentHash (header b) ++ FromUint64 (nonce (header b))
                         ++ coinbase (header b)
                         ++ FromInt64 (timestamp (header b))
                         ++ concat (map tx_Hash (transactions b1)))) w1 ∧
    (invalidTxs (transactions b) (rewardedTrie b) (txsTrie b) = [] →
     transactions b1 = transactions b ∧
     HashBlock l w1 = Ret (hash (header b1)) w1).
Proof.
  intros Hb Hs.
  destruct (Seal_unsealed_returns l b Hs)
    as (b1 & put & Hrun & Hh & _ & _ & Hp & Hn & Hc & Ht & _ & _ & Hnone).
  destruct (steps_lookup _ _ _ _ _ _ _ Hrun Hb) as (w1 & HS & Hb1 & _ & _).
  exists w1, b1. split; [done|]. split; [done|]. split; [done|].
  rewrite (HashBlock_Some _ _ _ Hb1). unfold hashInput at 1.
  rewrite Hp, Hn, Hc, Ht. split; [done|].
  intros Hinv. destruct (Hnone Hinv) as [Htx _]. split; [done|].
  rewrite Hh. unfold hashInput. by rewrite Hp, Hn, Hc, Ht, Htx.
Qed.

(** C1, amended. [VerifyStateRoot] on a block that [Seal] has just sealed
    runs the reward and the execution a second time, on the trie [Seal]
    left. It returns no error exactly when the root of the trie after this
    second pass is the root [Seal] stored, that is when the second pass
    leaves the root unchanged, and [ErrInvalidBlockStateRoot] otherwise. *)
Theorem Seal_then_VerifyStateRoot w l b :
  blocks w !! l = Some b →
  sealed b = false →
  ∃ w1 b1 w2 b2,
    Seal l w = Ret tt w1 ∧ blocks w1 !! l = Some b1 ∧
    stateRoot (header b1) = trie_RootHash (stateTrie b1) ∧
    blocks w2 !! l = Some b2 ∧
    stateTrie b2
      = (executeLoop 0 (transactions b1) (rewardedTrie b1) (txsTrie b1) []).1.1 ∧
    VerifyStateRoot l w1
      = Ret (if bool_decide (trie_RootHash (stateTrie b2)
                             = trie_RootHash (stateTrie b1))
             then None else Some ErrInvalidBlockStateRoot) w2.
Proof.
  intros Hb Hs.
  destruct (Seal_unsealed_returns l b Hs)
    as (b1 & put & Hrun & _ & Hroot & _).
  destruct (steps_lookup _ _ _ _ _ _ _ Hrun Hb) as (w1 & HS & Hb1 & _ & _).
  destruct (VerifyStateRoot_returns w1 l b1 Hb1)
    as (w2 & b2 & _ & Hb2 & Hst2 & HV).
  exists w1, b1, w2, b2. split_and!; try done. by rewrite HV, Hroot.
Qed.

(** What [VerifyStateRoot] is made for: run on a copy of the sealed block
    that carries the sealed header and the transactions, on the tries as
    they were before [Seal] (what a receiver holds once the block is linked
    to its parent), it returns no error, provided no transaction failed
    when the block was sealed. *)
Lemma VerifyStateRoot_of_unexecuted_copy w l b w1 b1 wr (lr : loc) (r : Block) :
  blocks w !! l = Some b → sealed b = false →
  Seal l w = Ret tt w1 → blocks w1 !! l = Some b1 →
  invalidTxs (transactions b) (rewardedTrie b) (txsTrie b) = [] →
  blocks wr !! lr = Some r →
  header r = header b1 → transactions r = transactions b1 →
  stateTrie r = stateTrie b → txsTrie r = txsTrie b →
  ∃ wr', VerifyStateRoot lr wr = Ret None wr'.
Proof.
  intros Hb Hs HS Hb1 Hinv Hr Hh Htx Hst Htr.
  destruct (Seal_unsealed_returns l b Hs)
    as (b1' & put & Hrun & _ & Hroot & _ & _ & _ & Hc & _ & Hst1 & _ & Hnone).
  destruct (steps_lookup _ _ _ _ _ _ _ Hrun Hb) as (w1' & HS' & Hb1' & _).
  assert (w1' = w1) as -> by congruence.
  assert (b1' = b1) as -> by congruence.
  destruct (Hnone Hinv) as [Htx1 _].
  destruct (VerifyStateRoot_returns wr lr r Hr) as (wr' & r' & _ & _ & Hst' & HV).
  assert (rewardedTrie r = rewardedTrie b) as Hrt.
  { unfold rewardedTrie, rewarded, decodedCoinbase. rewrite Hst, Hh, Hc.
    destruct (trie_Get (stateTrie b) (coinbase (header b))) as [v|].
    - destruct (proto_Unmarshal v) as [account|err]; [|done].
      by destruct (proto_Marshal _).
    - by destruct (proto_Marshal _). }
  exists wr'. rewrite HV, bool_decide_eq_true_2; [done|].
  by rewrite Hh, Hroot, Hst', Hst1, Htx, Htx1, Htr, Hrt.
Qed.

Lemma rewardCoinbase_error_iff w l b err :
  blocks w !! l = Some b →
  (∃ w', rewardCoinbase l w = Ret (Some err) w') ↔
  (decodedCoinbase b = inr err ∨
   ∃ account, decodedCoinbase b = inl account ∧
              proto_Marshal (mkAccount (wrap64 (Balance account + BlockReward)))
              = inr err).
Proof.
  intros Hb. rewrite (rewardCoinbase_steps l b w Hb). unfold rewarded.
  destruct (decodedCoinbase b) as [account|e]; simpl.
  - destruct (proto_Marshal _) as [bytes|e] eqn:E; simpl.
    + split; [by intros [? ?]|].
      intros [? | (a & Ha & Hm)]; [done|].
      injection Ha as <-. congruence.
    + split.
      * intros [w' Hr]. simplify_eq. right. by exists account.
      * intros [? | (a & Ha & Hm)]; [done|].
        injection Ha as <-. assert (e = err) as -> by congruence. by eexists.
  - split.
    + intros [w' Hr]. simplify_eq. by left.
    + intros [Hl | (a & ? & _)]; [|done]. simplify_eq. by eexists.
Qed.

(** C8. [rewardCoinbase] returns an error exactly when the coinbase record
    cannot be decoded or the updated record cannot be encoded, and then
    leaves the world as it was. [HashBlockStateRoot] drops that error: on a
    block whose reward fails it still executes the transactions, on the
    state without the reward, and returns the root of the resulting trie;
    [Seal] stores that root and seals the block. *)
Theorem reward_error_is_dropped w l b :
  blocks w !! l = Some b →
  (∀ err,
      (∃ w', rewardCoinbase l w = Ret (Some err) w') ↔
      (decodedCoinbase b = inr err ∨
       ∃ account,
         decodedCoinbase b = inl account ∧
         proto_Marshal (mkAccount (wrap64 (Balance account + BlockReward)))
         = inr err)) ∧
  (∀ err w',
      rewardCoinbase l w = Ret (Some err) w' →
      w' = w ∧
      (∃ w2 b2,
          HashBlockStateRoot l w = Ret (trie_RootHash (stateTrie b2)) w2 ∧
          blocks w2 !! l = Some b2 ∧
          stateTrie b2
          = (executeLoop 0 (transactions b) (stateTrie b) (txsTrie b) []).1.1) ∧
      (sealed b = false →
       ∃ w1 b1, Seal l w = Ret tt w1 ∧ blocks w1 !! l = Some b1 ∧
                sealed b1 = true ∧
                stateRoot (header b1) = trie_RootHash (stateTrie b1))).
Proof.
  intros Hb. split; [intros err; by apply rewardCoinbase_error_iff|].
  intros err w' Hret.
  assert (rewarded b = (b, Some err)) as Hrew.
  { pose proof (proj1 (rewardCoinbase_error_iff w l b err Hb)
                        (ex_intro _ w' Hret)) as Herr.
    unfold rewarded. destruct Herr as [-> | (account & -> & ->)]; done. }
  split; [|split].
  - rewrite (rewardCoinbase_steps l b w Hb), Hrew in Hret. simpl in Hret.
    destruct w as [bs pl]; simpl in *.
    rewrite insert_id, app_nil_r in Hret by done. congruence.
  - destruct (HashBlockStateRoot_returns l b)
      as (b2 & put & Hrun & _ & _ & _ & _ & Hst & _).
    destruct (steps_lookup _ _ _ _ _ _ _ Hrun Hb) as (w2 & HR & Hb2 & _).
    exists w2, b2. split_and!; try done.
    rewrite Hst. unfold rewardedTrie. by rewrite Hrew.
  - intros Hs.
    destruct (Seal_unsealed_returns l b Hs)
      as (b1 & put & Hrun & _ & Hroot & Hsealed & _).
    destruct (steps_lookup _ _ _ _ _ _ _ Hrun Hb) as (w1 & HS & Hb1 & _).
    by exists w1, b1.
Qed.

(** *** [executeTransactions] when one transaction fails *)

(** C2, as far as the code goes. When exactly the transaction at index [k]
    fails, [executeTransactions] hands that transaction, and nothing else, to
    the pool. It removes it from the block, keeping the others in their
    order, unless [k] is 0 and the block holds two transactions or more: then
    the list is left as it was, the failed transaction still in front. *)
Theorem executeTransactions_one_failure w l b (k : Z) tx :
  blocks w !! l = Some b →
  invalidTxs (transactions b) (stateTrie b) (txsTrie b) = [k] →
  0 ≤ k →
  transactions b !! Z.to_nat k = Some tx →
  ∃ w' b',
    executeTransactions l w = Ret tt w' ∧ blocks w' !! l = Some b' ∧
    txPool w' = txPool w ++ [tx] ∧
    transactions b'
      = (if bool_decide (k = 0 ∧ (2 ≤ length (transactions b))%nat)
         then transactions b
         else take (Z.to_nat k) (transactions b)
                ++ drop (S (Z.to_nat k)) (transactions b)).
Proof.
  intros Hb Hinv Hk Htx. pose proof (lookup_lt_Some _ _ _ Htx) as Hlt.
  set (txs' := if k =? Z.of_nat (length (transactions b)) - 1
               then take (Z.to_nat k) (transactions b)
               else if k =? 0 then transactions b
               else take (Z.to_nat k) (transactions b)
                      ++ drop (Z.to_nat (k + 1)) (transactions b)).
  assert (steps (executeTransactions l) l b tt (executed b txs') [tx]) as Hrun.
  { apply executeTransactions_steps. intros w0. rewrite Hinv. simpl rev.
    by rewrite (removeLoop_cons _ _ _ _ tx). }
  destruct (steps_lookup _ _ _ _ _ _ _ Hrun Hb) as (w' & HE & Hb' & Hpl & _).
  exists w', (executed b txs'). split_and!; try done.
  unfold executed; simpl. subst txs'.
  replace (Z.to_nat (k + 1)) with (S (Z.to_nat k)) by lia.
  destruct (Z.eqb_spec k (Z.of_nat (length (transactions b)) - 1)) as [E|E].
  - rewrite bool_decide_eq_false_2 by lia.
    rewrite (drop_ge (transactions b)) by lia. by rewrite app_nil_r.
  - destruct (Z.eqb_spec k 0) as [E0|E0].
    + by rewrite bool_decide_eq_true_2 by lia.
    + by rewrite bool_decide_eq_false_2 by lia.
Qed.

(** *** The ancestor walk of [LinkParentBlock] *)

Lemma walk_det bs l path1 t1 path2 t2 :
  walk bs l path1 t1 → walk bs l path2 t2 → path1 = path2 ∧ t1 = t2.
Proof.
  intros W1. revert path2 t2.
  induction W1 as [l b Hb Hstop | l b parent path t Hb Hh Hp W1 IH];
    intros path2 t2 W2; inversion W2; subst; simplify_eq.
  - done.
  - destruct Hstop; [lia | congruence].
  - match goal with Hs : _ ∨ _ |- _ => destruct Hs; [lia | congruence] end.
  - match goal with W : walk _ _ _ t2 |- _ => destruct (IH _ _ W) as [-> ->] end.
    done.
Qed.

Lemma walk_stop_at bs l path t : walk bs l path t → walk bs t [] t.
Proof. induction 1; [by eapply walk_stop | done]. Qed.

Lemma walk_suffix bs l path t x :
  walk bs l path t → x ∈ path →
  ∃ path', walk bs x path' t ∧ (length path' ≤ length path)%nat.
Proof.
  induction 1 as [| l b parent path t Hb Hh Hp W IH]; intros Hx.
  - by apply elem_of_nil in Hx.
  - apply elem_of_cons in Hx as [-> | Hx].
    + exists (l :: path). split; [by eapply walk_step | done].
    + destruct (IH Hx) as (path' & W' & Hlen). exists path'.
      split; [done | simpl; lia].
Qed.

(** A walk never meets a block twice. *)
Lemma walk_NoDup bs l path t : walk bs l path t → NoDup (path ++ [t]).
Proof.
  induction 1 as [l b Hb Hstop | l b parent path t Hb Hh Hp W IH]; simpl.
  - apply NoDup_singleton.
  - apply NoDup_cons. split; [|done].
    assert (walk bs l (l :: path) t) as Wl by by eapply walk_step.
    intros [Hin | Hin%list_elem_of_singleton]%elem_of_app.
    + destruct (walk_suffix _ _ _ _ _ W Hin) as (path' & W' & Hlen).
      destruct (walk_det _ _ _ _ _ _ Wl W') as [<- _]. simpl in Hlen. lia.
    + subst l. pose proof (walk_stop_at _ _ _ _ W) as Wt.
      by destruct (walk_det _ _ _ _ _ _ Wl Wt).
Qed.

(** Writing a block that is not on a walk leaves the walk as it is. *)
Lemma walk_frame bs l path t l' b' :
  walk bs l path t → l' ∉ path → l' ≠ t → walk (<[l' := b']> bs) l path t.
Proof.
  induction 1 as [l b Hb Hstop | l b parent path t Hb Hh Hp W IH];
    intros Hnot Hne.
  - eapply walk_stop; [|done]. by rewrite lookup_insert_ne.
  - apply not_elem_of_cons in Hnot as [Hl Hnot].
    eapply walk_step; [|done|done|by apply IH]. by rewrite lookup_insert_ne.
Qed.

Lemma wrap64_small z : 0 ≤ z < 2 ^ 64 → wrap64 z = z.
Proof. intros. unfold wrap64. by apply Z.mod_small. Qed.

(** The first loop, given fuel for the walk: the number of blocks met and
    the height of the one it stops at. *)
Lemma findAncestor_walk w l path t bt :
  walk (blocks w) l path t → blocks w !! t = Some bt →
  ∀ fuel depth ancestorHeight,
    (length path < fuel)%nat → 0 ≤ depth →
    depth + Z.of_nat (length path) + 1 < 2 ^ 64 →
    findAncestor fuel (Some l) depth ancestorHeight w
    = Ret (depth + Z.of_nat (length path) + 1, height bt) w.
Proof.
  induction 1 as [l b Hb Hstop | l b parent path t Hb Hh Hp W IH];
    intros Hbt fuel depth ancestorHeight Hfuel Hd Hbound;
    (destruct fuel as [|fuel]; [simpl in Hfuel; lia|]);
    simpl; unfold bind; rewrite (load_Some _ _ _ Hb).
  - assert (bt = b) as -> by congruence.
    rewrite wrap64_small by (simpl in *; lia). simpl.
    rewrite Z.add_0_r.
    destruct (Z.ltb_spec 0 (height b)); [done|].
    destruct Hstop as [? | ->]; [lia|]. by destruct fuel.
  - rewrite Hh, Hp, Z.ltb_irrefl.
    rewrite wrap64_small by (simpl in *; lia).
    rewrite (IH Hbt) by (simpl in *; lia).
    do 2 f_equal. simpl length. lia.
Qed.

(** The second loop, given fuel for the walk: every block of the path gets
    the height of the block the walk stops at plus its distance to it;
    nothing else changes. *)
Lemma assignHeights_walk path :
  ∀ w l t ancestorHeight fuel,
    walk (blocks w) l path t →
    (length path ≤ fuel)%nat →
    Z.of_nat (length path) + 1 < 2 ^ 64 →
    ∃ w',
      assignHeights fuel (Some l) (Z.of_nat (length path) + 1)
                    ancestorHeight w = Ret tt w' ∧
      txPool w' = txPool w ∧
      (∀ (i : nat) x bx,
          path !! i = Some x → blocks w !! x = Some bx →
          blocks w' !! x
          = Some (with_height
                    (wrap64 (ancestorHeight + Z.of_nat (length path - i)))
                    bx)) ∧
      (∀ x, x ∉ path → blocks w' !! x = blocks w !! x).
Proof.
  induction path as [|a path IH]; intros w l t ancestorHeight fuel W Hfuel Hb.
  - exists w. simpl. split; [by destruct fuel|]. split; [done|].
    split; [intros i x bx Hi; by destruct i | done].
  - pose proof (walk_NoDup _ _ _ _ W) as Hnd.
    inversion W as [| l' b parent path' t' Hbl Hh Hp W']; subst.
    simpl in Hnd. apply NoDup_cons in Hnd as [Hnot Hnd].
    apply not_elem_of_app in Hnot as [Hnot Hne%not_elem_of_cons].
    destruct Hne as [Hne _].
    destruct fuel as [|fuel]; [simpl in Hfuel; lia|].
    set (h := wrap64 (ancestorHeight + Z.of_nat (length (a :: path)))).
    destruct (IH (with_block a (with_height h b) w) parent t ancestorHeight fuel)
      as (w' & Hrun & Hpl & Hpath & Hrest).
    { by apply walk_frame. }
    { simpl in Hfuel. lia. }
    { simpl length in Hb. lia. }
    exists w'. split; [|split; [done|split]].
    + cbn [assignHeights].
      destruct (Z.ltb_spec 1 (Z.of_nat (length (a :: path)) + 1));
        [|simpl length in *; lia].
      unfold bind.
      rewrite (wrap64_small (Z.of_nat (length (a :: path)) + 1 - 1))
        by (simpl length in *; lia).
      rewrite (store_Some _ _ _ _ Hbl).
      replace (Z.of_nat (length (a :: path)) + 1 - 1)
        with (Z.of_nat (length (a :: path))) by lia.
      fold h. rewrite (load_Some _ _ _ (lookup_with_block _ _ _)).
      simpl parenetBlock. rewrite Hp.
      replace (Z.of_nat (length (a :: path)))
        with (Z.of_nat (length path) + 1) by (simpl length; lia).
      done.
    + intros i x bx Hi Hx. destruct i as [|i]; simpl in Hi.
      * simplify_eq. rewrite (Hrest _ Hnot), lookup_with_block.
        subst h. do 3 f_equal; simpl length; lia.
      * assert (x ≠ a) as Hxa.
        { intros ->. apply Hnot. by eapply list_elem_of_lookup_2. }
        rewrite (Hpath i x bx Hi); [done|].
        by rewrite lookup_with_block_ne.
    + intros x [Hxa Hx]%not_elem_of_cons.
      rewrite (Hrest _ Hx). by rewrite lookup_with_block_ne.
Qed.

(** [LinkParentBlock] on a matching pair whose parent trie clones, for a
    block of height zero whose ancestors form a walk. *)
Lemma LinkParentBlock_walk w (lb lp : loc) b p st path t bt fuel :
  blocks w !! lb = Some b → blocks w !! lp = Some p →
  parentHash (header b) = hash (header p) →
  trie_Clone (stateTrie p) = inl st →
  height b = 0 →
  walk (blocks w) lp path t → blocks w !! t = Some bt →
  lb ∉ path → lb ≠ t →
  Z.of_nat (length path) + 2 < 2 ^ 64 →
  (length path + 2 ≤ fuel)%nat →
  ∃ w',
    LinkParentBlock fuel lb lp w = Ret true w' ∧
    txPool w' = txPool w ∧
    blocks w' !! lb
    = Some (with_height
              (wrap64 (height bt + (Z.of_nat (length path) + 1)))
              (with_parenetBlock (Some lp) (with_stateTrie st b))) ∧
    (∀ (i : nat) x bx,
        path !! i = Some x → blocks w !! x = Some bx →
        blocks w' !! x
        = Some (with_height (wrap64 (height bt + Z.of_nat (length path - i)))
                            bx)) ∧
    (∀ x, x ≠ lb → x ∉ path → blocks w' !! x = blocks w !! x).
Proof.
  intros Hb Hp Hhash Hclone Hh W Hbt Hnot Hne Hbound Hfuel.
  set (b2 := with_parenetBlock (Some lp) (with_stateTrie st b)).
  set (w2 := with_block lb b2 w).
  assert (walk (blocks w2) lb (lb :: path) t) as W2.
  { eapply walk_step; [apply lookup_with_block|done|done|].
    by apply walk_frame. }
  assert (blocks w2 !! t = Some bt) as Hbt2.
  { unfold w2. by rewrite lookup_with_block_ne. }
  destruct (assignHeights_walk (lb :: path) w2 lb t (height bt) fuel W2)
    as (w' & Hrun & Hpl & Hpath & Hrest).
  { simpl. lia. }
  { simpl length. lia. }
  exists w'. split; [|split; [done|split; [|split]]].
  - unfold LinkParentBlock. unfold bind at 1. rewrite (load_Some _ _ _ Hb).
    unfold bind at 1. rewrite (load_Some _ _ _ Hp).
    unfold Hash_Equals. rewrite bool_decide_eq_true_2 by done.
    cbn [negb]. rewrite Hclone.
    unfold bind at 1. rewrite (store_Some _ _ _ _ Hb).
    unfold bind at 1.
    rewrite (store_Some _ _ _ _ (lookup_with_block _ _ _)).
    rewrite with_block_twice. fold b2. fold w2.
    unfold bind at 1.
    rewrite (findAncestor_walk _ _ _ _ _ W2 Hbt2) by (simpl length; lia).
    cbn [fst snd]. rewrite Z.add_0_l.
    unfold bind. by rewrite Hrun.
  - rewrite (Hpath 0%nat lb b2); [|done|apply lookup_with_block].
    do 3 f_equal. simpl length. lia.
  - intros i x bx Hi Hx.
    assert (x ≠ lb) as Hxl.
    { intros ->. apply Hnot. by eapply list_elem_of_lookup_2. }
    rewrite (Hpath (S i) x bx); [done|done|].
    unfold w2. by rewrite lookup_with_block_ne.
  - intros x Hxl Hx. rewrite Hrest by (apply not_elem_of_cons; done).
    unfold w2. by rewrite lookup_with_block_ne.
Qed.

(** Linking is fatal when the trie of the parent does not clone. *)
Lemma LinkParentBlock_clone_failure fuel w (lb lp : loc) b p err :
  blocks w !! lb = Some b → blocks w !! lp = Some p →
  parentHash (header b) = hash (header p) →
  trie_Clone (stateTrie p) = inr err →
  LinkParentBlock fuel lb lp w = Panic clone_fail.
Proof.
  intros Hb Hp Hhash Hclone. unfold LinkParentBlock, bind.
  rewrite (load_Some _ _ _ Hb), (load_Some _ _ _ Hp).
  unfold Hash_Equals. rewrite bool_decide_eq_true_2 by done.
  cbn [negb]. by rewrite Hclone.
Qed.


(** Nothing stops the walk on a block of height zero that is its own
    parent: no fuel is enough. *)
Lemma LinkParentBlock_self_link w l b st :
  blocks w !! l = Some b →
  parentHash (header b) = hash (header b) →
  trie_Clone (stateTrie b) = inl st →
  height b = 0 →
  ∀ fuel, LinkParentBlock fuel l l w = OutOfFuel.
Proof.
  intros Hb Hhash Hclone Hh fuel.
  unfold LinkParentBlock. unfold bind at 1. rewrite (load_Some _ _ _ Hb).
  unfold bind at 1. rewrite (load_Some _ _ _ Hb).
  unfold Hash_Equals. rewrite bool_decide_eq_true_2 by done.
  cbn [negb]. rewrite Hclone.
  unfold bind at 1. rewrite (store_Some _ _ _ _ Hb).
  unfold bind at 1. rewrite (store_Some _ _ _ _ (lookup_with_block _ _ _)).
  rewrite with_block_twice. unfold bind at 1.
  pose proof (lookup_with_block w l
                (with_parenetBlock (Some l) (with_stateTrie st b))) as Hw2.
  set (w2 := with_block l _ w) in *.
  assert (∀ depth ancestorHeight,
             findAncestor fuel (Some l) depth ancestorHeight w2 = OutOfFuel)
    as ->; [|done].
  induction fuel as [|fuel IH]; intros depth ancestorHeight; [done|].
  cbn [findAncestor]. unfold bind. rewrite (load_Some _ _ _ Hw2).
  cbn [height parenetBlock with_parenetBlock with_stateTrie].
  rewrite Hh, Z.ltb_irrefl. apply IH.
Qed.


End Properties.

(** ** Further properties *)

Section MoreProperties.

Context {Transaction Trie : Type} `{!Collaborators Transaction Trie}.

Abbreviation Block := (@Block Transaction Trie).
Abbreviation World := (@World Transaction Trie).
Abbreviation BlockChain := (@BlockChain Transaction Trie).
Abbreviation M := (@M Transaction Trie).

Implicit Types (w : World) (b p : Block) (l : loc) (bs : gmap loc Block).

(** *** What [executeTransactions] removes and hands to the pool *)

Lemma survivors_clean (invalid : list Z) lenOfTxs (txs : list Transaction) :
  ∀ idx,
    (∀ k, idx ≤ k < idx + Z.of_nat (length txs) → k ∉ invalid) →
    survivors invalid lenOfTxs idx txs = txs.
Proof.
  induction txs as [|tx txs IH]; intros idx Hclean; [done|].
  cbn [survivors]. rewrite bool_decide_eq_false_2.
  - f_equal. apply IH. intros k Hk. apply Hclean. simpl length. lia.
  - intros [Hin _]. apply (Hclean idx); [simpl length; lia | done].
Qed.

Lemma survivors_app (invalid : list Z) lenOfTxs (txs1 txs2 : list Transaction) :
  ∀ idx,
    survivors invalid lenOfTxs idx (txs1 ++ txs2)
    = survivors invalid lenOfTxs idx txs1
        ++ survivors invalid lenOfTxs (idx + Z.of_nat (length txs1)) txs2.
Proof.
  induction txs1 as [|tx txs1 IH]; intros idx.
  - simpl. by rewrite Z.add_0_r.
  - cbn [survivors app]. rewrite IH.
    replace (idx + 1 + Z.of_nat (length txs1))
      with (idx + Z.of_nat (length (tx :: txs1))) by (simpl length; lia).
    by case_bool_decide.
Qed.

Lemma descending_below_elem bound pending k :
  descending_below bound pending → k ∈ pending → 0 ≤ k < bound.
Proof.
  revert bound. induction pending as [|i pending IH]; intros bound Hd Hk.
  - by apply elem_of_nil in Hk.
  - destruct Hd as [Hi Hd]. apply elem_of_cons in Hk as [-> | Hk]; [done|].
    specialize (IH _ Hd Hk). lia.
Qed.

(** The second loop, from any point of its run: [cur] is the list it has
    reached when the indices from [j] on are dealt with. *)
Lemma removeLoop_survivors (orig : list Transaction) (invalid : list Z) :
  ∀ pending j cur,
    descending_below j pending →
    0 ≤ j ≤ Z.of_nat (length orig) →
    (∀ k, k ∈ pending → k ∈ invalid) →
    (∀ k, k ∈ invalid → 0 ≤ k < j → k ∈ pending) →
    cur = take (Z.to_nat j) orig
            ++ survivors invalid (Z.of_nat (length orig)) j
                         (drop (Z.to_nat j) orig) →
    ∃ put,
      (∀ w, removeLoop pending (Z.of_nat (length orig)) cur w
            = Ret (survivors invalid (Z.of_nat (length orig)) 0 orig)
                  (with_txPool (txPool w ++ put) w)) ∧
      Forall2 (λ i tx, orig !! Z.to_nat i = Some tx) pending put.
Proof.
  remember (Z.of_nat (length orig)) as N eqn:HN.
  induction pending as [|idx pending IH]; intros j cur Hd Hj Hsub Hall Hcur.
  - exists []. split; [|constructor]. intros w. simpl. unfold ret, with_txPool.
    rewrite app_nil_r. destruct w as [bs pl]; simpl. f_equal.
    rewrite Hcur.
    assert (survivors invalid N 0 orig
            = survivors invalid N 0
                        (take (Z.to_nat j) orig ++ drop (Z.to_nat j) orig))
      as -> by by rewrite take_drop.
    rewrite survivors_app, (survivors_clean _ _ (take (Z.to_nat j) orig)).
    + rewrite length_take, Nat.min_l, Z.add_0_l, Z2Nat.id by lia. done.
    + intros k Hk Hin. rewrite length_take, Nat.min_l in Hk by lia.
      apply (elem_of_nil k). apply Hall; [done | lia].
  - destruct Hd as [Hidx Hd].
    set (i := Z.to_nat idx). set (jn := Z.to_nat j).
    destruct (lookup_lt_is_Some_2 orig i) as [tx Htx]; [lia|].
    (* orig = pre ++ tx :: mid ++ suf, the cut after mid at j *)
    set (pre := take i orig).
    set (mid := take (jn - S i) (drop (S i) orig)).
    set (suf := drop jn orig).
    assert (drop (S i) orig = mid ++ suf) as Hrest.
    { subst mid suf. rewrite <- (take_drop (jn - S i) (drop (S i) orig)) at 1.
      f_equal. rewrite drop_drop. f_equal. lia. }
    assert (orig = pre ++ tx :: mid ++ suf) as Horig.
    { rewrite <- Hrest. subst pre. by rewrite take_drop_middle. }
    assert (length pre = i) as Hpre.
    { subst pre. rewrite length_take. lia. }
    assert (length mid = (jn - S i)%nat) as Hmid.
    { subst mid. rewrite length_take, length_drop. lia. }
    assert (take jn orig = pre ++ tx :: mid) as Htake.
    { rewrite Horig at 1.
      replace (pre ++ tx :: mid ++ suf) with ((pre ++ tx :: mid) ++ suf)
        by by rewrite <- app_assoc.
      rewrite take_app_length'; [done|].
      rewrite length_app, Hpre. simpl. rewrite Hmid. lia. }
    set (kept := survivors invalid N j suf).
    assert (cur = pre ++ tx :: mid ++ kept) as Hcur'.
    { rewrite Hcur. fold jn suf. rewrite Htake. fold kept.
      by rewrite <- app_assoc. }
    assert (survivors invalid N (idx + 1) (mid ++ suf) = mid ++ kept) as Hms.
    { rewrite survivors_app, survivors_clean.
      - subst kept. do 2 f_equal. rewrite Hmid. lia.
      - intros k Hk Hin. rewrite Hmid in Hk.
        assert (k ∈ idx :: pending) as Hkp by (apply Hall; [done | lia]).
        apply elem_of_cons in Hkp as [-> | Hkp]; [lia|].
        pose proof (descending_below_elem _ _ _ Hd Hkp). lia. }
    assert (cur !! i = Some tx) as Hcuri.
    { rewrite Hcur'. rewrite lookup_app_r by lia.
      by replace (i - length pre)%nat with 0%nat by lia. }
    set (cur1 := if idx =? N - 1 then take i cur
                 else if idx =? 0 then cur
                 else take i cur ++ drop (Z.to_nat (idx + 1)) cur).
    destruct (IH idx cur1) as (put & Hrun & Hput); try done.
    { lia. }
    { intros k Hk. apply Hsub. by right. }
    { intros k Hin Hk.
      assert (k ∈ idx :: pending) as Hkp by (apply Hall; [done | lia]).
      apply elem_of_cons in Hkp as [-> | Hkp]; [lia | done]. }
    { fold i. fold pre. rewrite (drop_S _ _ _ Htx), Hrest.
      cbn [survivors]. rewrite Hms.
      assert (idx ∈ invalid) as Hin by (apply Hsub; by left).
      subst cur1. destruct (Z.eqb_spec idx (N - 1)) as [E|E].
      - (* the last transaction of the block *)
        assert (jn = S i) as Hjn by lia.
        assert (mid = []) as -> by (apply nil_length_inv; lia).
        assert (suf = []) as Hsuf.
        { subst suf. apply drop_ge. lia. }
        subst kept. rewrite Hsuf. simpl.
        rewrite bool_decide_eq_true_2 by (split; [done | lia]).
        rewrite Hcur'. rewrite take_app_length'; [|done].
        by rewrite app_nil_r.
      - destruct (Z.eqb_spec idx 0) as [E0|E0].
        + (* index 0 of a longer block: nothing is removed *)
          rewrite bool_decide_eq_false_2 by (intros [_ Hn]; apply Hn; lia).
          assert (pre = []) as -> by (apply nil_length_inv; lia).
          by rewrite Hcur'.
        + rewrite bool_decide_eq_true_2 by (split; [done | lia]).
          rewrite Hcur'. rewrite take_app_length'; [|done].
          replace (Z.to_nat (idx + 1)) with (length (pre ++ [tx]))
            by (rewrite length_app, Hpre; simpl; lia).
          replace (pre ++ tx :: mid ++ kept) with ((pre ++ [tx]) ++ mid ++ kept)
            by by rewrite <- app_assoc.
          by rewrite drop_app_length. }
    exists (tx :: put). split; [|by constructor].
    intros w. rewrite (removeLoop_cons _ _ _ _ tx) by (fold i; lia || done).
    fold i. fold cur1. rewrite Hrun.
    unfold with_txPool; simpl. by rewrite <- app_assoc.
Qed.

Lemma elem_of_rev_iff (k : Z) (ks : list Z) : k ∈ rev ks ↔ k ∈ ks.
Proof. rewrite !list_elem_of_In. symmetry. apply in_rev. Qed.

(** [executeTransactions] on any block: the block it leaves and what it
    hands to the pool. *)
Lemma executeTransactions_run l b :
  ∃ put,
    steps (executeTransactions l) l b tt
          (executed b
             (survivors (invalidTxs (transactions b) (stateTrie b) (txsTrie b))
                        (Z.of_nat (length (transactions b))) 0
                        (transactions b)))
          put ∧
    Forall2 (λ i tx, transactions b !! Z.to_nat i = Some tx)
            (rev (invalidTxs (transactions b) (stateTrie b) (txsTrie b)))
            put.
Proof.
  set (inv := invalidTxs (transactions b) (stateTrie b) (txsTrie b)).
  destruct (removeLoop_survivors (transactions b) inv (rev inv)
              (Z.of_nat (length (transactions b))) (transactions b))
    as (put & Hrun & Hput).
  - apply invalidTxs_descending.
  - lia.
  - intros k. by rewrite elem_of_rev_iff.
  - intros k Hk _. by rewrite elem_of_rev_iff.
  - rewrite Nat2Z.id, firstn_all, drop_all. simpl. by rewrite app_nil_r.
  - exists put. split; [|done]. by apply executeTransactions_steps.
Qed.

(** X2. [executeTransactions] always returns and leaves in the block, in
    their order, the transactions whose execution did not fail, and with
    them the first transaction of a block of two or more even when it
    failed; header, sealed flag, height and parent of the block and every
    other block are untouched. *)
Theorem executeTransactions_keeps w l b :
  blocks w !! l = Some b →
  ∃ w' b',
    executeTransactions l w = Ret tt w' ∧ blocks w' !! l = Some b' ∧
    transactions b'
    = survivors (invalidTxs (transactions b) (stateTrie b) (txsTrie b))
                (Z.of_nat (length (transactions b))) 0 (transactions b) ∧
    header b' = header b ∧ sealed b' = sealed b ∧ height b' = height b ∧
    parenetBlock b' = parenetBlock b ∧
    (invalidTxs (transactions b) (stateTrie b) (txsTrie b) = [] →
     transactions b' = transactions b ∧ txPool w' = txPool w) ∧
    ∀ l', l' ≠ l → blocks w' !! l' = blocks w !! l'.
Proof.
  intros Hb. destruct (executeTransactions_run l b) as (put & Hrun & Hput).
  destruct (steps_lookup _ _ _ _ _ _ _ Hrun Hb) as (w' & HE & Hb' & Hpl & Hfr).
  exists w', (executed b
                (survivors (invalidTxs (transactions b) (stateTrie b) (txsTrie b))
                           (Z.of_nat (length (transactions b))) 0
                           (transactions b))).
  split_and!; try done.
  intros Hinv. rewrite Hinv in Hput |- *. simpl in Hput.
  apply Forall2_nil_inv_l in Hput as ->. rewrite app_nil_r in Hpl.
  split; [|done]. simpl. apply survivors_clean. intros k _.
  apply not_elem_of_nil.
Qed.

(** X1. [executeTransactions] hands to the pool the transactions at the
    indices its first loop recorded as failed, from the highest index to
    the lowest, every one of them once (the indices are strictly
    descending and in range), and no other transaction. *)
Theorem executeTransactions_returns_failed w l b :
  blocks w !! l = Some b →
  ∃ w' put,
    executeTransactions l w = Ret tt w' ∧
    txPool w' = txPool w ++ put ∧
    Forall2 (λ i tx, transactions b !! Z.to_nat i = Some tx)
            (rev (invalidTxs (transactions b) (stateTrie b) (txsTrie b)))
            put ∧
    descending_below
      (Z.of_nat (length (transactions b)))
      (rev (invalidTxs (transactions b) (stateTrie b) (txsTrie b))).
Proof.
  intros Hb. destruct (executeTransactions_run l b) as (put & Hrun & Hput).
  destruct (steps_lookup _ _ _ _ _ _ _ Hrun Hb) as (w' & HE & _ & Hpl & _).
  exists w', put. split_and!; try done. apply invalidTxs_descending.
Qed.

(** *** The reward *)

(** X3. When the coinbase record decodes and the updated record encodes,
    [rewardCoinbase] returns no error and puts the encoded record at the
    coinbase address; on a trie that gives back what was put and a codec
    that decodes what it encoded, the balance read after the call is the
    balance before plus [BlockReward], in [uint64] arithmetic, a missing
    record counting as a balance of zero. *)
Theorem rewardCoinbase_credits w l b account bytes :
  blocks w !! l = Some b →
  decodedCoinbase b = inl account →
  proto_Marshal (mkAccount (wrap64 (Balance account + BlockReward)))
  = inl bytes →
  trie_Get (trie_Put (stateTrie b) (coinbase (header b)) bytes)
           (coinbase (header b)) = Some bytes →
  proto_Unmarshal bytes
  = inl (mkAccount (wrap64 (Balance account + BlockReward))) →
  ∃ w' b',
    rewardCoinbase l w = Ret None w' ∧ blocks w' !! l = Some b' ∧
    stateTrie b' = trie_Put (stateTrie b) (coinbase (header b)) bytes ∧
    decodedCoinbase b' = inl (mkAccount (wrap64 (Balance account + 16))) ∧
    (trie_Get (stateTrie b) (coinbase (header b)) = None →
     decodedCoinbase b' = inl (mkAccount 16)) ∧
    txPool w' = txPool w ∧
    ∀ l', l' ≠ l → blocks w' !! l' = blocks w !! l'.
Proof.
  intros Hb Hdec Henc Hget Hround.
  pose proof (rewardCoinbase_steps l b) as Hrun.
  assert (rewarded b
          = (with_stateTrie
               (trie_Put (stateTrie b) (coinbase (header b)) bytes) b, None))
    as Hrew by (unfold rewarded; by rewrite Hdec, Henc).
  rewrite Hrew in Hrun. simpl in Hrun.
  destruct (steps_lookup _ _ _ _ _ _ _ Hrun Hb) as (w' & HR & Hb' & Hpl & Hfr).
  exists w', (with_stateTrie
                (trie_Put (stateTrie b) (coinbase (header b)) bytes) b).
  rewrite app_nil_r in Hpl.
  assert (decodedCoinbase
            (with_stateTrie
               (trie_Put (stateTrie b) (coinbase (header b)) bytes) b)
          = inl (mkAccount (wrap64 (Balance account + 16)))) as Hafter.
  { unfold decodedCoinbase. simpl. by rewrite Hget, Hround. }
  split_and!; try done.
  intros Hnone. rewrite Hafter. unfold decodedCoinbase in Hdec.
  rewrite Hnone in Hdec. by injection Hdec as <-.
Qed.

(** *** Sealing *)

(** [Seal] on any block: what it leaves alone. *)
Lemma Seal_returns_frame w l b :
  blocks w !! l = Some b →
  ∃ w1 b1 put,
    Seal l w = Ret tt w1 ∧ blocks w1 !! l = Some b1 ∧ sealed b1 = true ∧
    parentHash (header b1) = parentHash (header b) ∧
    nonce (header b1) = nonce (header b) ∧
    coinbase (header b1) = coinbase (header b) ∧
    timestamp (header b1) = timestamp (header b) ∧
    chainID (header b1) = chainID (header b) ∧
    height b1 = height b ∧ parenetBlock b1 = parenetBlock b ∧
    txPool w1 = txPool w ++ put ∧
    (∀ l', l' ≠ l → blocks w1 !! l' = blocks w !! l').
Proof.
  intros Hb. destruct (sealed b) eqn:Hs.
  - exists w, b, []. rewrite app_nil_r. split_and!; try done.
    unfold Seal, bind. by rewrite (load_Some _ _ _ Hb), Hs.
  - set (bh := with_header (with_hash (sha3_256 (hashInput b))) b).
    destruct (HashBlockStateRoot_returns l bh)
      as (b' & put & Hrun & Hh & _ & Hg & Hp & _).
    assert (steps (Seal l) l b tt
              (with_sealed true
                 (with_header (with_stateRoot (trie_RootHash (stateTrie b')))
                              b')) put) as HS.
    { intros w0 Hb0. unfold Seal. unfold bind at 1.
      rewrite (load_Some _ _ _ Hb0), Hs.
      unfold bind at 1. rewrite (HashBlock_Some _ _ _ Hb0).
      unfold bind at 1. rewrite (store_Some _ _ _ _ Hb0). fold bh.
      unfold bind at 1. rewrite (Hrun _ (lookup_with_block _ _ _)).
      unfold bind. erewrite store_Some by apply lookup_insert_eq.
      erewrite store_Some by apply lookup_with_block.
      unfold with_block; simpl. by rewrite !insert_insert_eq. }
    destruct (steps_lookup _ _ _ _ _ _ _ HS Hb) as (w1 & HR & Hb1 & Hpl & Hfr).
    eexists w1, _, put. split; [done|]. split; [done|].
    simpl. rewrite Hh, Hg, Hp. simpl. split_and!; done.
Qed.


(** X5. Sealing twice is sealing once: on every block, [Seal] followed by
    [Seal] ends in the world the first [Seal] leaves. *)
Theorem Seal_twice w l b :
  blocks w !! l = Some b →
  bind (Seal l) (λ _, Seal l) w = Seal l w.
Proof.
  intros Hb.
  destruct (Seal_returns_frame w l b Hb) as (w1 & b1 & put & HS & Hb1 & Hs & _).
  unfold bind at 1. rewrite HS.
  unfold Seal, bind. by rewrite (load_Some _ _ _ Hb1), Hs.
Qed.

(** X4. A sealed block is closed to the mutators: after [Seal], on every
    block, [Sealed] answers true and [SetNonce], [SetTimestamp] and
    [AddTransactions] panic. *)
Theorem Seal_then_mutation_panics w l b (n t : Z) (txs : list Transaction) :
  blocks w !! l = Some b →
  ∃ w1,
    Seal l w = Ret tt w1 ∧
    Sealed l w1 = Ret true w1 ∧
    SetNonce l n w1 = Panic sealed_msg ∧
    SetTimestamp l t w1 = Panic sealed_msg ∧
    AddTransactions l txs w1 = Panic sealed_msg.
Proof.
  intros Hb.
  destruct (Seal_returns_frame w l b Hb) as (w1 & b1 & put & HS & Hb1 & Hs & _).
  exists w1. split; [done|].
  unfold Sealed, SetNonce, SetTimestamp, AddTransactions, bind, ret, panic.
  by rewrite (load_Some _ _ _ Hb1), Hs.
Qed.

(** X14. [AddTransactions] composes: adding [txs1] and then [txs2] is adding
    [txs1 ++ txs2], on every block and in every world (on a sealed block
    and on a nil block both sides panic); nothing is deduplicated. *)
Theorem AddTransactions_twice w l (txs1 txs2 : list Transaction) :
  bind (AddTransactions l txs1) (λ _, AddTransactions l txs2) w
  = AddTransactions l (txs1 ++ txs2) w.
Proof.
  unfold AddTransactions, bind, load, store, ret, panic.
  destruct (blocks w !! l) as [b|] eqn:Hb; [|done].
  destruct (sealed b) eqn:Hs; [done|].
  rewrite Hb. rewrite !lookup_with_block. simpl. rewrite Hs.
  rewrite lookup_with_block, with_block_twice. simpl.
  by rewrite app_assoc.
Qed.

(** *** Verifying a copy of a sealed block *)

(** X7. [Verify] accepts a copy of a sealed block that carries the sealed
    header and the transactions on the tries as they were before [Seal]:
    when no transaction failed while the block was sealed, the consensus
    backend accepts the copy and its transactions verify, [Verify] returns
    no error. *)
Theorem Verify_accepts_unexecuted_copy
        w l b w1 b1 wr (lr : loc) (r : Block) (bc : BlockChain) :
  blocks w !! l = Some b → sealed b = false →
  Seal l w = Ret tt w1 → blocks w1 !! l = Some b1 →
  invalidTxs (transactions b) (rewardedTrie b) (txsTrie b) = [] →
  blocks wr !! lr = Some r →
  header r = header b1 → transactions r = transactions b1 →
  stateTrie r = stateTrie b → txsTrie r = txsTrie b →
  bc wr lr = None →
  Forall (λ tx, tx_Verify tx = None) (transactions r) →
  ∃ wr', Verify lr bc wr = Ret None wr'.
Proof.
  intros Hb Hs HS Hb1 Hinv Hr Hh Htx Hst Htr Hbc Hver.
  destruct (VerifyStateRoot_of_unexecuted_copy
              w l b w1 b1 wr lr r Hb Hs HS Hb1 Hinv Hr Hh Htx Hst Htr)
    as (wr' & HV).
  destruct (Seal_unsealed_returns l b Hs)
    as (b1' & put & Hrun & Hhash & _ & _ & Hp & Hn & Hc & Ht & _ & _ & Hnone).
  destruct (steps_lookup _ _ _ _ _ _ _ Hrun Hb) as (w1' & HS' & Hb1' & _).
  assert (b1' = b1) as -> by congruence.
  destruct (Hnone Hinv) as [Htx1 _].
  exists wr'. unfold Verify, bind. rewrite (VerifyHash_Some _ _ _ _ Hr), Hbc.
  rewrite bool_decide_eq_true_2.
  - apply verifyTransactions_None in Hver. by rewrite Hver.
  - rewrite Hh, Hhash. unfold hashInput.
    by rewrite Hh, Hp, Hn, Hc, Ht, Htx, Htx1.
Qed.

(** *** Linking: what is left alone, any walk, cycles *)

Lemma findAncestor_pure fuel :
  ∀ ancestor depth ancestorHeight w found w',
    findAncestor fuel ancestor depth ancestorHeight w = Ret found w' → w' = w.
Proof.
  induction fuel as [|fuel IH]; intros ancestor depth ancestorHeight w found w';
    destruct ancestor as [a|]; cbn [findAncestor]; unfold ret;
    try (intros [= _ <-]; done); try done.
  unfold bind, load. destruct (blocks w !! a) as [blk|]; [|done].
  destruct (0 <? height blk); [by intros [= _ <-]|]. apply IH.
Qed.

Lemma heights_only_refl w :
  ∀ x, option_Forall2 (λ bx bx' : Block, bx' = with_height (height bx') bx)
                      (blocks w !! x) (blocks w !! x).
Proof.
  intros x. destruct (blocks w !! x) as [[]|]; by constructor.
Qed.

Lemma assignHeights_heights_only fuel :
  ∀ ancestor depth ancestorHeight w w',
    assignHeights fuel ancestor depth ancestorHeight w = Ret tt w' →
    txPool w' = txPool w ∧
    ∀ x, option_Forall2 (λ bx bx' : Block, bx' = with_height (height bx') bx)
                        (blocks w !! x) (blocks w' !! x).
Proof.
  induction fuel as [|fuel IH]; intros ancestor depth ancestorHeight w w';
    destruct ancestor as [a|]; cbn [assignHeights]; unfold ret;
    try (intros [= <-]; split; [done | apply heights_only_refl]);
    destruct (1 <? depth);
    try (intros [= <-]; split; [done | apply heights_only_refl]); try done.
  unfold bind, store, load.
  destruct (blocks w !! a) as [blk|] eqn:Ha; [|done].
  simpl. rewrite lookup_insert_eq.
  intros Hrun. apply IH in Hrun as [Hpl Hrel]. split; [done|].
  intros x. specialize (Hrel x). simpl in Hrel.
  destruct (decide (x = a)) as [->|Hne].
  - rewrite lookup_insert_eq in Hrel. rewrite Ha.
    inversion Hrel as [bx bx' Hbx|]; subst. constructor.
    rewrite Hbx. by destruct blk.
  - by rewrite lookup_insert_ne in Hrel.
Qed.

(** X8. A call of [LinkParentBlock] that returns has changed no header, no
    transaction list, no sealed flag, no transaction trie and not the pool,
    has added or removed no block, and has changed the state trie and the
    parent of no block but the linked one; when it returns false it has
    changed nothing. *)
Theorem LinkParentBlock_frame fuel w (lb lp : loc) (r : bool) w' :
  LinkParentBlock fuel lb lp w = Ret r w' →
  txPool w' = txPool w ∧
  (r = false → w' = w) ∧
  ∀ x,
    option_Forall2
      (λ bx bx' : Block,
         header bx' = header bx ∧ transactions bx' = transactions bx ∧
         sealed bx' = sealed bx ∧ txsTrie bx' = txsTrie bx ∧
         (x ≠ lb →
          stateTrie bx' = stateTrie bx ∧ parenetBlock bx' = parenetBlock bx))
      (blocks w !! x) (blocks w' !! x).
Proof.
  unfold LinkParentBlock. unfold bind at 1, load at 1.
  destruct (blocks w !! lb) as [b|] eqn:Hb; [|done].
  unfold bind at 1, load at 1.
  destruct (blocks w !! lp) as [p|] eqn:Hp; [|done].
  destruct (negb _).
  { intros [= <- <-]. split; [done|]. split; [done|].
    intros x. destruct (blocks w !! x); by constructor. }
  destruct (trie_Clone (stateTrie p)) as [st|err]; [|done].
  unfold bind at 1. rewrite (store_Some _ _ _ _ Hb).
  unfold bind at 1. rewrite (store_Some _ _ _ _ (lookup_with_block _ _ _)).
  rewrite with_block_twice.
  set (w2 := with_block lb (with_parenetBlock (Some lp) (with_stateTrie st b)) w).
  unfold bind at 1.
  destruct (findAncestor fuel (Some lb) 0 0 w2) as [found w3| |] eqn:Hfind;
    [|done|done].
  apply findAncestor_pure in Hfind as ->.
  unfold bind at 1.
  destruct (assignHeights fuel (Some lb) found.1 found.2 w2)
    as [[] w3| |] eqn:Hassign; [|done|done].
  apply assignHeights_heights_only in Hassign as [Hpl Hrel].
  intros [= <- <-]. split; [done|]. split; [done|].
  intros x. specialize (Hrel x). subst w2. simpl in Hrel.
  destruct (decide (x = lb)) as [->|Hne].
  - rewrite lookup_insert_eq in Hrel. rewrite Hb.
    inversion Hrel as [bx bx' Hbx|]; subst. constructor.
    rewrite Hbx. simpl. by split_and!.
  - rewrite lookup_insert_ne in Hrel by done.
    destruct Hrel as [bx bx' Hbx|]; constructor.
    rewrite Hbx. simpl. by split_and!.
Qed.

(** X9. Whatever block the walk stops at: when the parent of a block of
    height zero starts a chain of blocks of height zero that leads to a
    block [t] of positive height or without a parent, the block not being
    on that chain, [LinkParentBlock] returns true and gives the block and
    every block of the chain the height of [t] plus its distance to [t], in
    [uint64]; [t], every block off the chain and the pool are left as they
    were. *)
Theorem LinkParentBlock_heights_from_stop
        w (lb lp : loc) b p st (path : list loc) (t : loc) bt fuel :
  blocks w !! lb = Some b → blocks w !! lp = Some p →
  parentHash (header b) = hash (header p) →
  trie_Clone (stateTrie p) = inl st →
  height b = 0 →
  walk (blocks w) lp path t → blocks w !! t = Some bt →
  lb ∉ path → lb ≠ t →
  Z.of_nat (length path) + 2 < 2 ^ 64 →
  (length path + 2 ≤ fuel)%nat →
  ∃ w',
    LinkParentBlock fuel lb lp w = Ret true w' ∧
    txPool w' = txPool w ∧
    blocks w' !! lb
    = Some (with_height
              (wrap64 (height bt + (Z.of_nat (length path) + 1)))
              (with_parenetBlock (Some lp) (with_stateTrie st b))) ∧
    (∀ (i : nat) x bx,
        path !! i = Some x → blocks w !! x = Some bx →
        blocks w' !! x
        = Some (with_height (wrap64 (height bt + Z.of_nat (length path - i)))
                            bx)) ∧
    (∀ x, x ≠ lb → x ∉ path → blocks w' !! x = blocks w !! x).
Proof. intros. by eapply LinkParentBlock_walk. Qed.

(** X10. [LinkParentBlock] does not return when the link closes a cycle of
    blocks of height zero: if [P] holds of the parent and every block of
    [P] but the linked one has height zero and a parent in [P], the linked
    block having height zero too, no amount of fuel lets the call end. *)
Theorem LinkParentBlock_cycle w (lb lp : loc) b p st (P : loc → Prop) :
  blocks w !! lb = Some b → blocks w !! lp = Some p →
  parentHash (header b) = hash (header p) →
  trie_Clone (stateTrie p) = inl st →
  height b = 0 →
  P lp →
  (∀ x, P x → x ≠ lb →
        ∃ bx y, blocks w !! x = Some bx ∧ height bx = 0 ∧
                parenetBlock bx = Some y ∧ P y) →
  ∀ fuel, LinkParentBlock fuel lb lp w = OutOfFuel.
Proof.
  intros Hb Hp Hhash Hclone Hh HP Hclosed fuel.
  unfold LinkParentBlock. unfold bind at 1. rewrite (load_Some _ _ _ Hb).
  unfold bind at 1. rewrite (load_Some _ _ _ Hp).
  unfold Hash_Equals. rewrite bool_decide_eq_true_2 by done.
  cbn [negb]. rewrite Hclone.
  unfold bind at 1. rewrite (store_Some _ _ _ _ Hb).
  unfold bind at 1. rewrite (store_Some _ _ _ _ (lookup_with_block _ _ _)).
  rewrite with_block_twice. unfold bind at 1.
  set (b2 := with_parenetBlock (Some lp) (with_stateTrie st b)).
  set (w2 := with_block lb b2 w).
  assert (∀ x, x = lb ∨ P x →
               ∃ bx y, blocks w2 !! x = Some bx ∧ height bx = 0 ∧
                       parenetBlock bx = Some y ∧ (y = lb ∨ P y)) as Hinv.
  { intros x Hx. destruct (decide (x = lb)) as [->|Hne].
    - exists b2, lp. split; [apply lookup_with_block|]. by split_and!; [..|right].
    - destruct Hx as [?|Hx]; [done|].
      destruct (Hclosed x Hx Hne) as (bx & y & Hbx & Hhx & Hpx & Hy).
      exists bx, y. unfold w2. rewrite lookup_with_block_ne by done.
      by split_and!; [..|right]. }
  assert (∀ x depth ancestorHeight,
             x = lb ∨ P x →
             findAncestor fuel (Some x) depth ancestorHeight w2 = OutOfFuel)
    as Hdiv.
  { clearbody w2. clear -Hinv.
    induction fuel as [|fuel IH]; intros x depth ancestorHeight Hx; [done|].
    destruct (Hinv x Hx) as (bx & y & Hbx & Hhx & Hpx & Hy).
    cbn [findAncestor]. unfold bind. rewrite (load_Some _ _ _ Hbx).
    rewrite Hhx, Z.ltb_irrefl, Hpx. by apply IH. }
  by rewrite Hdiv by by left.
Qed.

(** X16. The setters write what the getters read and nothing else: after
    [SetNonce] and [SetTimestamp] on an unsealed block, [Nonce] answers the
    new nonce, and [Hash], [StateRoot], [ParentHash], [ParentBlock],
    [Height] and [Sealed] answer what the block held before; the stored
    hash is not refreshed. No getter changes the world. *)
Theorem setters_then_getters w l b (n t : Z) :
  blocks w !! l = Some b → sealed b = false →
  ∃ w1 b1,
    bind (SetNonce l n) (λ _, SetTimestamp l t) w = Ret tt w1 ∧
    blocks w1 !! l = Some b1 ∧
    timestamp (header b1) = t ∧
    Nonce l w1 = Ret n w1 ∧
    Block_Hash l w1 = Ret (hash (header b)) w1 ∧
    StateRoot l w1 = Ret (stateRoot (header b)) w1 ∧
    ParentHash l w1 = Ret (parentHash (header b)) w1 ∧
    ParentBlock l w1 = Ret (parenetBlock b) w1 ∧
    Height l w1 = Ret (height b) w1 ∧
    Sealed l w1 = Ret false w1.
Proof.
  intros Hb Hs.
  exists (with_block l (with_header (with_timestamp t)
                          (with_header (with_nonce n) b)) w),
         (with_header (with_timestamp t) (with_header (with_nonce n) b)).
  assert (blocks (with_block l (with_header (with_timestamp t)
                                  (with_header (with_nonce n) b)) w) !! l
          = Some (with_header (with_timestamp t)
                    (with_header (with_nonce n) b))) as Hb1
    by apply lookup_with_block.
  split_and!.
  - unfold bind at 1, SetNonce, SetTimestamp, bind.
    rewrite (load_Some _ _ _ Hb), Hs.
    rewrite (store_Some _ _ _ _ Hb).
    rewrite (load_Some _ _ _ (lookup_with_block _ _ _)).
    destruct b as [[] ? ? ? ? ? ?]; simpl in *; subst.
    rewrite (store_Some _ _ _ _ (lookup_with_block _ _ _)).
    by rewrite with_block_twice.
  - exact Hb1.
  - by destruct b as [[] ? ? ? ? ? ?].
  - unfold Nonce, bind. rewrite (load_Some _ _ _ Hb1).
    by destruct b as [[] ? ? ? ? ? ?].
  - unfold Block_Hash, bind. rewrite (load_Some _ _ _ Hb1).
    by destruct b as [[] ? ? ? ? ? ?].
  - unfold StateRoot, bind. rewrite (load_Some _ _ _ Hb1).
    by destruct b as [[] ? ? ? ? ? ?].
  - unfold ParentHash, bind. rewrite (load_Some _ _ _ Hb1).
    by destruct b as [[] ? ? ? ? ? ?].
  - unfold ParentBlock, bind. rewrite (load_Some _ _ _ Hb1).
    by destruct b as [[] ? ? ? ? ? ?].
  - unfold Height, bind. rewrite (load_Some _ _ _ Hb1).
    by destruct b as [[] ? ? ? ? ? ?].
  - unfold Sealed, bind. rewrite (load_Some _ _ _ Hb1).
    destruct b as [[] ? ? ? ? ? ?]; simpl in *; by subst.
Qed.

End MoreProperties.

(** ** Properties of the wire form *)

Section WireProperties.

Context {Transaction Trie PbTransaction : Type}.
Context `{!TxCodec Transaction PbTransaction}.

Abbreviation Block := (@Block Transaction Trie).
Abbreviation World := (@World Transaction Trie).
Abbreviation Message := (Message PbTransaction).

Implicit Types (w : World) (b t : Block) (l : loc) (msg : Message).

Lemma with_transactions_id b : with_transactions (transactions b) b = b.
Proof. by destruct b. Qed.

(** X11. A header survives the wire: [BlockHeader.ToProto] returns no error,
    and [BlockHeader.FromProto] of the message it yields sets the seven fields
    of the header of any block to those of the original and leaves the rest
    of the block alone. A message of another kind is refused with the
    world unchanged, and a nil header message makes the call panic. *)
Theorem BlockHeader_roundtrip w l b (hd : BlockHeader) msg :
  blocks w !! l = Some b →
  (BlockHeader_ToProto (PbTransaction := PbTransaction) hd).2 = None ∧
  BlockHeader_FromProto l (BlockHeader_ToProto (PbTransaction := PbTransaction)
                                               hd).1 w
  = Ret None (with_block l (with_header (λ _, hd) b) w) ∧
  ((∀ m, msg ≠ MsgBlockHeader m) →
   BlockHeader_FromProto l msg w = Ret (Some (errors_New not_a_header)) w) ∧
  BlockHeader_FromProto l (MsgBlockHeader (PbTransaction := PbTransaction) None) w
  = Panic nil_deref.
Proof.
  intros Hb. split; [done|]. split; [|split; [|done]].
  - unfold BlockHeader_FromProto, BlockHeader_ToProto, bind; simpl.
    rewrite (store_Some _ _ _ _ Hb). by destruct hd.
  - intros Hne. destruct msg as [m| | |]; try done. by destruct (Hne m).
Qed.

(** The loop of [Block.ToProto] when every transaction converts. *)
Lemma toProtoLoop_converts (txs : list Transaction) :
  ∀ (ms acc : list (option PbTransaction)),
    Forall2 (λ tx m, tx_ToProto tx = MsgTransaction m) txs ms →
    toProtoLoop txs acc = inl (acc ++ ms).
Proof.
  induction txs as [|tx txs IH]; intros ms acc Hall.
  - apply Forall2_nil_inv_l in Hall as ->. simpl. by rewrite app_nil_r.
  - apply Forall2_cons_inv_l in Hall as (m & ms' & Hm & Hall & ->).
    simpl. rewrite Hm, (IH ms') by done. by rewrite <- app_assoc.
Qed.

(** The loop of [Block.ToProto] when some transaction does not. *)
Lemma toProtoLoop_refuses (txs : list Transaction) :
  ∀ acc : list (option PbTransaction),
    Exists (λ tx, ∀ m, tx_ToProto tx ≠ MsgTransaction m) txs →
    toProtoLoop txs acc = inr (errors_New not_a_transaction).
Proof.
  induction txs as [|tx txs IH]; intros acc Hex.
  - by apply Exists_nil in Hex.
  - simpl. destruct (tx_ToProto tx) as [| |m|] eqn:E; try done.
    apply IH. apply Exists_cons in Hex as [Hbad|Hex]; [|done].
    by destruct (Hbad m).
Qed.

(** The loop of [Block.FromProto]: the transactions decoded before the
    first error, if any, are appended. *)
Lemma fromProtoLoop_appends (ms : list (option PbTransaction)) :
  ∀ w l t (txs : list Transaction),
    blocks w !! l = Some t →
    Forall2 (λ m tx, tx_FromProto (MsgTransaction m) = inl tx) ms txs →
    fromProtoLoop l ms w
    = Ret None (with_block l (with_transactions (transactions t ++ txs) t) w).
Proof.
  induction ms as [|m ms IH]; intros w l t txs Ht Hall.
  - apply Forall2_nil_inv_l in Hall as ->. simpl. unfold ret.
    by rewrite app_nil_r, with_transactions_id, with_block_id.
  - apply Forall2_cons_inv_l in Hall as (tx & txs' & Hm & Hall & ->).
    simpl. rewrite Hm. unfold bind. rewrite (store_Some _ _ _ _ Ht).
    rewrite (IH _ l _ txs' (lookup_with_block _ _ _) Hall).
    rewrite with_block_twice. simpl. by rewrite <- app_assoc.
Qed.


(** [Block.FromProto] on a block message with a header. *)
Lemma Block_FromProto_header w l t (h : pbBlockHeader)
      (ms : list (option PbTransaction)) :
  blocks w !! l = Some t →
  Block_FromProto l (MsgBlock (Some (mkPbBlock (Some h) ms))) w
  = fromProtoLoop l ms
      (with_block l
         (with_header
            (λ _, mkBlockHeader (pb_Hash h) (pb_ParentHash h) (pb_StateRoot h)
                                (pb_Nonce h) (pb_Coinbase h) (pb_Timestamp h)
                                (pb_ChainID h)) t) w).
Proof.
  intros Ht. unfold Block_FromProto, BlockHeader_FromProto. simpl.
  unfold bind at 1. rewrite (store_Some _ _ _ _ Ht).
  unfold bind at 1. unfold bind at 1.
  rewrite (store_Some _ _ _ _ (lookup_with_block _ _ _)).
  unfold ret at 1. by rewrite with_block_twice.
Qed.

(** X12. A block survives the wire as far as the wire carries it: when the
    transactions of a block convert to messages that decode to themselves,
    [Block.ToProto] yields a message and changes nothing, and
    [Block.FromProto] of that message on any block gives it the header of
    the original and appends the transactions of the original to its own;
    the sealed flag, the height, the parent and the tries of the receiving
    block stay as they were, the sealed flag of the original is not
    carried. *)
Theorem Block_roundtrip w l b w' (l' : loc) t :
  blocks w !! l = Some b →
  blocks w' !! l' = Some t →
  Forall (λ tx, ∃ m, tx_ToProto tx = MsgTransaction m ∧
                     tx_FromProto (MsgTransaction m) = inl tx)
         (transactions b) →
  ∃ msg,
    Block_ToProto l w = Ret (inl msg) w ∧
    Block_FromProto l' msg w'
    = Ret None
          (with_block l'
             (with_transactions (transactions t ++ transactions b)
                                (with_header (λ _, header b) t)) w').
Proof.
  intros Hb Ht Hall.
  assert (∃ ms, Forall2 (λ tx m, tx_ToProto tx = MsgTransaction m)
                        (transactions b) ms ∧
                Forall2 (λ m tx, tx_FromProto (MsgTransaction m) = inl tx)
                        ms (transactions b)) as (ms & Hto & Hfrom).
  { induction Hall as [|tx txs (m & Hm & Hd) _ (ms & Hto & Hfrom)].
    - exists []. by split; constructor.
    - exists (m :: ms). by split; constructor. }
  eexists. split.
  - unfold Block_ToProto, bind. rewrite (load_Some _ _ _ Hb). simpl.
    by rewrite (toProtoLoop_converts _ ms []).
  - rewrite (Block_FromProto_header _ _ _ _ _ Ht). simpl app.
    rewrite (fromProtoLoop_appends ms _ l' _ (transactions b)
               (lookup_with_block _ _ _) Hfrom).
    rewrite with_block_twice. simpl. by destruct (header b).
Qed.


(** X15. [Block.ToProto] reads and never writes: it returns the message
    made of the header and of the messages of the transactions, in their
    order, when every transaction converts to a transaction message, and
    the error "cannot be converted into Transaction" as soon as one does
    not; either way the world is the one before the call. *)
Theorem Block_ToProto_result w l b :
  blocks w !! l = Some b →
  (∀ ms, Forall2 (λ tx m, tx_ToProto tx = MsgTransaction m)
                 (transactions b) ms →
         Block_ToProto l w
         = Ret (inl (MsgBlock
                       (Some (mkPbBlock
                                (Some (mkPbBlockHeader
                                         (hash (header b))
                                         (parentHash (header b))
                                         (stateRoot (header b))
                                         (nonce (header b))
                                         (coinbase (header b))
                                         (timestamp (header b))
                                         (chainID (header b))))
                                ms)))) w) ∧
  (Exists (λ tx, ∀ m, tx_ToProto tx ≠ MsgTransaction m) (transactions b) →
   Block_ToProto l w = Ret (inr (errors_New not_a_transaction)) w).
Proof.
  intros Hb. split.
  - intros ms Hall. unfold Block_ToProto, bind. rewrite (load_Some _ _ _ Hb).
    simpl. by rewrite (toProtoLoop_converts _ ms []).
  - intros Hex. unfold Block_ToProto, bind. rewrite (load_Some _ _ _ Hb).
    simpl. by rewrite toProtoLoop_refuses.
Qed.

End WireProperties.

(** ** Runs on the reference implementation *)

Section Runs.

#[local] Existing Instance Ref.collaborators.

Import Ref.

(** *** Sealing, then verifying the state root *)

(** C1, as stated, fails: a fresh block on an empty state is sealed (the
    miner is credited 16), and [VerifyStateRoot] on the sealed block credits
    the miner a second time and rejects the root [Seal] stored. *)
Lemma fresh_seal_then_verify_rejected :
  blocks w_fresh !! 1%positive = Some b_fresh ∧ sealed b_fresh = false ∧
  ∃ w1, Seal 1%positive w_fresh = Ret tt w1 ∧
        result (VerifyStateRoot 1%positive w1)
        = Some (Some ErrInvalidBlockStateRoot).
Proof.
  split; [vm_compute; reflexivity|]. split; [reflexivity|].
  eexists. split; [vm_compute; reflexivity|]. vm_compute; reflexivity.
Qed.

Lemma Seal_then_VerifyStateRoot_witness :
  blocks w_corrupt !! 1%positive = Some b_corrupt ∧
  sealed b_corrupt = false ∧
  ∃ (w1 : @World transfer trie) (b1 : @Block transfer trie)
    (w2 : @World transfer trie) (b2 : @Block transfer trie),
    Seal 1%positive w_corrupt = Ret tt w1 ∧
    blocks w1 !! 1%positive = Some b1 ∧
    stateRoot (header b1) = trie_RootHash (stateTrie b1) ∧
    blocks w2 !! 1%positive = Some b2 ∧
    stateTrie b2
      = (executeLoop 0 (transactions b1) (rewardedTrie b1) (txsTrie b1) []).1.1 ∧
    VerifyStateRoot 1%positive w1
      = Ret (if bool_decide (trie_RootHash (stateTrie b2)
                             = trie_RootHash (stateTrie b1))
             then None else Some ErrInvalidBlockStateRoot) w2.
Proof.
  assert (blocks w_corrupt !! 1%positive = Some b_corrupt) as Hb
    by (vm_compute; reflexivity).
  split; [exact Hb|]. split; [reflexivity|].
  exact (Seal_then_VerifyStateRoot w_corrupt 1%positive b_corrupt Hb eq_refl).
Defined.

(** On the state whose coinbase record does not decode, the reward fails
    both times, the trie is not touched, and the sealed block verifies. *)
Lemma corrupt_seal_then_verify_accepted :
  ∃ w1, Seal 1%positive w_corrupt = Ret tt w1 ∧
        result (VerifyStateRoot 1%positive w1) = Some None.
Proof.
  eexists. split; [vm_compute; reflexivity|]. vm_compute; reflexivity.
Qed.

(** *** Executing the transactions *)

Lemma executeTransactions_one_failure_witness :
  blocks w_first_fails !! 1%positive = Some b_first_fails ∧
  invalidTxs (transactions b_first_fails) (stateTrie b_first_fails)
             (txsTrie b_first_fails) = [0] ∧
  transactions b_first_fails !! Z.to_nat 0 = Some t_poor ∧
  ∃ (w' : @World transfer trie) (b' : @Block transfer trie),
    executeTransactions 1%positive w_first_fails = Ret tt w' ∧
    blocks w' !! 1%positive = Some b' ∧
    txPool w' = txPool w_first_fails ++ [t_poor] ∧
    transactions b' = [t_poor; t_ok].
Proof.
  assert (blocks w_first_fails !! 1%positive = Some b_first_fails) as Hb
    by (vm_compute; reflexivity).
  assert (invalidTxs (transactions b_first_fails) (stateTrie b_first_fails)
                     (txsTrie b_first_fails) = [0]) as Hinv
    by (vm_compute; reflexivity).
  assert (transactions b_first_fails !! Z.to_nat 0 = Some t_poor) as Htx
    by reflexivity.
  split; [exact Hb|]. split; [exact Hinv|]. split; [exact Htx|].
  destruct (executeTransactions_one_failure w_first_fails 1%positive b_first_fails 0 t_poor Hb Hinv
              (Z.le_refl 0) Htx)
    as (w' & b' & Hrun & Hb' & Hpool & Htxs).
  exists w', b'. split; [exact Hrun|]. split; [exact Hb'|].
  split; [exact Hpool|]. exact Htxs.
Defined.

(** The failing input of C2: of two transactions the first fails. It is
    handed to the pool and is still the first transaction of the block. *)
Lemma first_failure_stays_in_block :
  ∃ w' : @World transfer trie,
    executeTransactions 1%positive w_first_fails = Ret tt w' ∧
    transactions <$> blocks w' !! 1%positive = Some [t_poor; t_ok] ∧
    txPool w' = [t_poor].
Proof.
  eexists. split; [vm_compute; reflexivity|].
  split; vm_compute; reflexivity.
Qed.

(** When the last of two transactions fails it is removed. *)
Lemma last_failure_is_removed :
  ∃ w' : @World transfer trie,
    executeTransactions 1%positive w_last_fails = Ret tt w' ∧
    transactions <$> blocks w' !! 1%positive = Some [t_ok] ∧
    txPool w' = [t_poor].
Proof.
  eexists. split; [vm_compute; reflexivity|].
  split; vm_compute; reflexivity.
Qed.

(** *** The reward error *)

Lemma reward_error_is_dropped_witness :
  blocks w_corrupt !! 1%positive = Some b_corrupt ∧
  rewardCoinbase 1%positive w_corrupt
  = Ret (Some (ErrCollaborator "proto: cannot parse the account")) w_corrupt ∧
  ∃ (w1 : @World transfer trie) (b1 : @Block transfer trie),
    Seal 1%positive w_corrupt = Ret tt w1 ∧
    blocks w1 !! 1%positive = Some b1 ∧ sealed b1 = true ∧
    stateRoot (header b1) = trie_RootHash (stateTrie b1).
Proof.
  assert (blocks w_corrupt !! 1%positive = Some b_corrupt) as Hb
    by (vm_compute; reflexivity).
  assert (rewardCoinbase 1%positive w_corrupt
          = Ret (Some (ErrCollaborator "proto: cannot parse the account"))
                w_corrupt) as Hret
    by (vm_compute; reflexivity).
  split; [exact Hb|]. split; [exact Hret|].
  destruct (proj2 (reward_error_is_dropped w_corrupt 1%positive b_corrupt Hb)
              _ _ Hret) as (_ & _ & Hseal).
  exact (Hseal eq_refl).
Defined.

(** *** The hash stored by [Seal] *)

Lemma Seal_hash_of_initial_transactions_witness :
  blocks w_last_fails !! 1%positive = Some b_last_fails ∧
  sealed b_last_fails = false ∧
  ∃ (w1 : @World transfer trie) (b1 : @Block transfer trie),
    Seal 1%positive w_last_fails = Ret tt w1 ∧
    blocks w1 !! 1%positive = Some b1 ∧
    hash (header b1)
    = sha3_256 (parentHash (header b_last_fails)
                  ++ FromUint64 (nonce (header b_last_fails))
                  ++ coinbase (header b_last_fails)
                  ++ FromInt64 (timestamp (header b_last_fails))
                  ++ concat (map tx_Hash [t_ok; t_poor])).
Proof.
  assert (blocks w_last_fails !! 1%positive = Some b_last_fails) as Hb
    by (vm_compute; reflexivity).
  split; [exact Hb|]. split; [reflexivity|].
  destruct (Seal_hash_of_initial_transactions w_last_fails 1%positive b_last_fails Hb eq_refl)
    as (w1 & b1 & Hrun & Hb1 & Hhash & _).
  exists w1, b1. split; [exact Hrun|]. split; [exact Hb1|]. exact Hhash.
Defined.

(** After a removal the stored hash is not the one [HashBlock] recomputes:
    sealing the block whose last transaction fails leaves one transaction,
    and [VerifyHash] on the sealed block answers [ErrInvalidBlockHash]. *)
Lemma removal_leaves_hash_of_initial_list :
  ∃ w1 : @World transfer trie,
    Seal 1%positive w_last_fails = Ret tt w1 ∧
    transactions <$> blocks w1 !! 1%positive = Some [t_ok] ∧
    result (VerifyHash 1%positive bc_accept w1) = Some (Some ErrInvalidBlockHash).
Proof.
  eexists. split; [vm_compute; reflexivity|].
  split; vm_compute; reflexivity.
Qed.

(** *** The mutators, [Seal] on a sealed block, [HashBlock], [Verify] *)


Lemma sealed_block_rejects_mutation :
  SetNonce 1%positive 7 w_sealed = Panic sealed_msg ∧
  SetTimestamp 1%positive 9 w_sealed = Panic sealed_msg ∧
  AddTransactions 1%positive [t_ok] w_sealed = Panic sealed_msg.
Proof. split; [|split]; vm_compute; reflexivity. Qed.

Lemma Seal_sealed_noop_witness :
  blocks w_sealed !! 1%positive = Some b_sealed ∧ sealed b_sealed = true ∧
  Seal 1%positive w_sealed = Ret tt w_sealed.
Proof.
  assert (blocks w_sealed !! 1%positive = Some b_sealed) as Hb
    by (vm_compute; reflexivity).
  split; [exact Hb|]. split; [reflexivity|].
  exact (Seal_sealed_noop w_sealed 1%positive b_sealed Hb eq_refl).
Defined.

Lemma HashBlock_inputs_witness :
  blocks w_first_fails !! 1%positive = Some b_first_fails ∧
  HashBlock 1%positive w_first_fails
  = Ret (sha3_256 (parentHash (header b_first_fails)
                     ++ FromUint64 (nonce (header b_first_fails))
                     ++ coinbase (header b_first_fails)
                     ++ FromInt64 (timestamp (header b_first_fails))
                     ++ concat (map tx_Hash (transactions b_first_fails))))
        w_first_fails.
Proof.
  assert (blocks w_first_fails !! 1%positive = Some b_first_fails) as Hb
    by (vm_compute; reflexivity).
  split; [exact Hb|].
  exact (proj1 (HashBlock_inputs w_first_fails 1%positive b_first_fails Hb)).
Defined.

Lemma Verify_stages_witness :
  blocks w_fresh !! 1%positive = Some b_fresh ∧
  Verify 1%positive bc_accept w_fresh = Ret (Some ErrInvalidBlockHash) w_fresh.
Proof.
  assert (blocks w_fresh !! 1%positive = Some b_fresh) as Hb
    by (vm_compute; reflexivity).
  split; [exact Hb|].
  rewrite (proj1 (Verify_stages w_fresh 1%positive b_fresh bc_accept Hb)).
  vm_compute. reflexivity.
Defined.

(** *** Linking *)

Lemma LinkParentBlock_mismatch_witness :
  blocks w_unlinked !! lB = Some bB ∧ blocks w_unlinked !! lG = Some bG ∧
  parentHash (header bB) ≠ hash (header bG) ∧
  LinkParentBlock 4 lB lG w_unlinked = Ret false w_unlinked.
Proof.
  assert (blocks w_unlinked !! lB = Some bB) as Hb by (vm_compute; reflexivity).
  assert (blocks w_unlinked !! lG = Some bG) as Hp by (vm_compute; reflexivity).
  assert (parentHash (header bB) ≠ hash (header bG)) as Hne
    by (vm_compute; discriminate).
  split; [exact Hb|]. split; [exact Hp|]. split; [exact Hne|].
  exact (LinkParentBlock_mismatch 4%nat w_unlinked lB lG bB bG Hb Hp Hne).
Defined.



(** That world is the one three calls of [LinkParentBlock] on the unlinked
    blocks lead to: B on A, X on G, A on X. *)
Lemma relink_world_is_reached :
  final (bind (LinkParentBlock 4 lB lA)
           (λ _, bind (LinkParentBlock 4 lX lG)
                   (λ _, LinkParentBlock 4 lA lX)) w_unlinked)
  = Some w_relink.
Proof. vm_compute. reflexivity. Qed.

(** A block of height zero whose parent hash is its own hash, linked to
    itself: the walk never ends. *)
Lemma self_link_never_returns :
  ∀ fuel, LinkParentBlock fuel 1%positive 1%positive w_fresh = OutOfFuel.
Proof.
  apply (LinkParentBlock_self_link w_fresh 1%positive b_fresh []); [vm_compute|..]; reflexivity.
Qed.

End Runs.

(** ** More runs on the reference implementation *)

Section MoreRuns.

#[local] Existing Instance Ref.collaborators.
#[local] Existing Instance Ref.codec.

Import Ref.

(** *** Executing the transactions *)

Lemma executeTransactions_returns_failed_witness :
  blocks w_last_fails !! 1%positive = Some b_last_fails ∧
  rev (invalidTxs (transactions b_last_fails) (stateTrie b_last_fails)
                  (txsTrie b_last_fails)) = [1] ∧
  ∃ (w' : @World transfer trie) (put : list transfer),
    executeTransactions 1%positive w_last_fails = Ret tt w' ∧
    txPool w' = txPool w_last_fails ++ put ∧
    Forall2 (λ i tx, transactions b_last_fails !! Z.to_nat i = Some tx) [1] put.
Proof.
  assert (blocks w_last_fails !! 1%positive = Some b_last_fails) as Hb
    by (vm_compute; reflexivity).
  assert (rev (invalidTxs (transactions b_last_fails) (stateTrie b_last_fails)
                          (txsTrie b_last_fails)) = [1]) as Hinv
    by (vm_compute; reflexivity).
  split; [exact Hb|]. split; [exact Hinv|].
  rewrite <- Hinv.
  destruct (executeTransactions_returns_failed w_last_fails 1%positive
              b_last_fails Hb)
    as (w' & put & Hrun & Hpool & Hput & _).
  exists w', put. split; [exact Hrun|]. split; [exact Hpool|exact Hput].
Defined.

Lemma executeTransactions_keeps_witness :
  blocks w_last_fails !! 1%positive = Some b_last_fails ∧
  survivors (invalidTxs (transactions b_last_fails) (stateTrie b_last_fails)
                        (txsTrie b_last_fails))
            (Z.of_nat (length (transactions b_last_fails))) 0
            (transactions b_last_fails) = [t_ok] ∧
  ∃ (w' : @World transfer trie) (b' : @Block transfer trie),
    executeTransactions 1%positive w_last_fails = Ret tt w' ∧
    blocks w' !! 1%positive = Some b' ∧
    transactions b' = [t_ok] ∧ header b' = header b_last_fails.
Proof.
  assert (blocks w_last_fails !! 1%positive = Some b_last_fails) as Hb
    by (vm_compute; reflexivity).
  assert (survivors
            (invalidTxs (transactions b_last_fails) (stateTrie b_last_fails)
                        (txsTrie b_last_fails))
            (Z.of_nat (length (transactions b_last_fails))) 0
            (transactions b_last_fails) = [t_ok]) as Hs
    by (vm_compute; reflexivity).
  split; [exact Hb|]. split; [exact Hs|].
  destruct (executeTransactions_keeps w_last_fails 1%positive b_last_fails Hb)
    as (w' & b' & Hrun & Hb' & Htxs & Hhd & _).
  exists w', b'. split; [exact Hrun|]. split; [exact Hb'|].
  split; [by rewrite Htxs|exact Hhd].
Defined.

(** *** The reward *)

(** On the empty state the miner has no record: after the reward the
    record at the coinbase address decodes to a balance of 16. *)
Lemma rewardCoinbase_credits_witness :
  blocks w_fresh !! 1%positive = Some b_fresh ∧
  decodedCoinbase b_fresh = inl (mkAccount 0) ∧
  ∃ (w' : @World transfer trie) (b' : @Block transfer trie),
    rewardCoinbase 1%positive w_fresh = Ret None w' ∧
    blocks w' !! 1%positive = Some b' ∧
    decodedCoinbase b' = inl (mkAccount 16).
Proof.
  assert (blocks w_fresh !! 1%positive = Some b_fresh) as Hb
    by (vm_compute; reflexivity).
  assert (decodedCoinbase b_fresh = inl (mkAccount 0)) as Hacc
    by (vm_compute; reflexivity).
  assert (proto_Marshal (mkAccount (wrap64 (Balance (mkAccount 0) + BlockReward)))
          = inl (be_bytes 8 16)) as Hm
    by (vm_compute; reflexivity).
  assert (trie_Get (trie_Put (stateTrie b_fresh) (coinbase (header b_fresh))
                             (be_bytes 8 16))
                   (coinbase (header b_fresh)) = Some (be_bytes 8 16)) as Hget
    by (vm_compute; reflexivity).
  assert (proto_Unmarshal (be_bytes 8 16)
          = inl (mkAccount (wrap64 (Balance (mkAccount 0) + BlockReward))))
    as Hun
    by (vm_compute; reflexivity).
  assert (trie_Get (stateTrie b_fresh) (coinbase (header b_fresh)) = None)
    as Hnone
    by (vm_compute; reflexivity).
  split; [exact Hb|]. split; [exact Hacc|].
  destruct (rewardCoinbase_credits w_fresh 1%positive b_fresh (mkAccount 0)
              (be_bytes 8 16) Hb Hacc Hm Hget Hun)
    as (w' & b' & Hrun & Hb' & _ & _ & Hzero & _).
  exists w', b'. split; [exact Hrun|]. split; [exact Hb'|]. exact (Hzero Hnone).
Defined.

(** *** Sealing *)


Lemma Seal_twice_witness :
  blocks w_last_fails !! 1%positive = Some b_last_fails ∧
  bind (Seal 1%positive) (λ _, Seal 1%positive) w_last_fails
  = Seal 1%positive w_last_fails.
Proof.
  assert (blocks w_last_fails !! 1%positive = Some b_last_fails) as Hb
    by (vm_compute; reflexivity).
  split; [exact Hb|].
  exact (Seal_twice w_last_fails 1%positive b_last_fails Hb).
Defined.

Lemma Seal_then_mutation_panics_witness :
  blocks w_fresh !! 1%positive = Some b_fresh ∧
  ∃ w1 : @World transfer trie,
    Seal 1%positive w_fresh = Ret tt w1 ∧
    Sealed 1%positive w1 = Ret true w1 ∧
    SetNonce 1%positive 7 w1 = Panic sealed_msg ∧
    SetTimestamp 1%positive 9 w1 = Panic sealed_msg ∧
    AddTransactions 1%positive [t_ok] w1 = Panic sealed_msg.
Proof.
  assert (blocks w_fresh !! 1%positive = Some b_fresh) as Hb
    by (vm_compute; reflexivity).
  split; [exact Hb|].
  exact (Seal_then_mutation_panics w_fresh 1%positive b_fresh 7 9 [t_ok] Hb).
Defined.

(** *** Verifying what was sealed *)

Lemma Verify_accepts_unexecuted_copy_witness :
  blocks w_paying !! 1%positive = Some b_paying ∧
  Seal 1%positive w_paying = Ret tt w_paid ∧
  blocks w_received !! 1%positive = Some b_received ∧
  stateTrie b_received = stateTrie b_paying ∧
  ∃ wr' : @World transfer trie,
    Verify 1%positive bc_accept w_received = Ret None wr'.
Proof.
  assert (blocks w_paying !! 1%positive = Some b_paying) as Hb
    by (vm_compute; reflexivity).
  assert (sealed b_paying = false) as Hs by reflexivity.
  assert (Seal 1%positive w_paying = Ret tt w_paid) as Hseal
    by (vm_compute; reflexivity).
  assert (blocks w_paid !! 1%positive = Some b_paid) as Hb1
    by (vm_compute; reflexivity).
  assert (invalidTxs (transactions b_paying) (rewardedTrie b_paying)
                     (txsTrie b_paying) = []) as Hinv
    by (vm_compute; reflexivity).
  assert (blocks w_received !! 1%positive = Some b_received) as Hr
    by (vm_compute; reflexivity).
  assert (header b_received = header b_paid) as Hhd by reflexivity.
  assert (transactions b_received = transactions b_paid) as Htxs
    by reflexivity.
  assert (stateTrie b_received = stateTrie b_paying) as Hst
    by (vm_compute; reflexivity).
  assert (txsTrie b_received = txsTrie b_paying) as Htt
    by (vm_compute; reflexivity).
  assert (bc_accept w_received 1%positive = None) as Hbc by reflexivity.
  assert (Forall (λ tx, tx_Verify tx = None) (transactions b_received)) as Hv.
  { assert (transactions b_received = [t_ok]) as ->
      by (vm_compute; reflexivity).
    constructor; [vm_compute; reflexivity|constructor]. }
  split; [exact Hb|]. split; [exact Hseal|]. split; [exact Hr|].
  split; [exact Hst|].
  exact (Verify_accepts_unexecuted_copy
           w_paying 1%positive b_paying w_paid b_paid w_received 1%positive
           b_received bc_accept
           Hb Hs Hseal Hb1 Hinv Hr Hhd Htxs Hst Htt Hbc Hv).
Defined.

(** *** Linking *)

Lemma LinkParentBlock_frame_witness :
  LinkParentBlock 3 lB lA w_chain = Ret true w_chain_linked ∧
  txPool w_chain_linked = txPool w_chain ∧
  option_Forall2
    (λ bx bx' : @Block transfer trie,
       header bx' = header bx ∧ transactions bx' = transactions bx ∧
       sealed bx' = sealed bx ∧ txsTrie bx' = txsTrie bx ∧
       (lA ≠ lB →
        stateTrie bx' = stateTrie bx ∧ parenetBlock bx' = parenetBlock bx))
    (blocks w_chain !! lA) (blocks w_chain_linked !! lA).
Proof.
  assert (LinkParentBlock 3 lB lA w_chain = Ret true w_chain_linked) as Hrun
    by (vm_compute; reflexivity).
  split; [exact Hrun|].
  destruct (LinkParentBlock_frame 3%nat w_chain lB lA true w_chain_linked Hrun)
    as (Hpool & _ & Hall).
  split; [exact Hpool|exact (Hall lA)].
Defined.

(** A on X, the height of X resolved to 1: the walk stops at X at once and
    A gets the height 2. *)
Lemma LinkParentBlock_heights_from_stop_witness :
  blocks w_resolved !! lA = Some bA ∧
  blocks w_resolved !! lX
  = Some (with_height 1 (with_parenetBlock (Some lG) bX)) ∧
  ∃ w' : @World transfer trie,
    LinkParentBlock 2 lA lX w_resolved = Ret true w' ∧
    height <$> blocks w' !! lA = Some 2 ∧
    blocks w' !! lX = blocks w_resolved !! lX.
Proof.
  assert (blocks w_resolved !! lA = Some bA) as Hb
    by (vm_compute; reflexivity).
  assert (blocks w_resolved !! lX
          = Some (with_height 1 (with_parenetBlock (Some lG) bX))) as Hp
    by (vm_compute; reflexivity).
  assert (parentHash (header bA)
          = hash (header (with_height 1 (with_parenetBlock (Some lG) bX))))
    as Hhash
    by (vm_compute; reflexivity).
  assert (trie_Clone (stateTrie (with_height 1
                                   (with_parenetBlock (Some lG) bX)))
          = inl (stateTrie bX)) as Hclone
    by reflexivity.
  assert (height bA = 0) as HhA by (vm_compute; reflexivity).
  assert (walk (blocks w_resolved) lX [] lX) as W.
  { eapply walk_stop; [exact Hp|left; simpl; lia]. }
  assert (lA ∉ ([] : list loc)) as Hnot by (apply not_elem_of_nil).
  assert (lA ≠ lX) as Hne by discriminate.
  assert (Z.of_nat (length ([] : list loc)) + 2 < 2 ^ 64) as Hlen
    by reflexivity.
  split; [exact Hb|]. split; [exact Hp|].
  destruct (LinkParentBlock_heights_from_stop
              w_resolved lA lX bA _ (stateTrie bX) [] lX _ 2%nat
              Hb Hp Hhash Hclone HhA W Hp Hnot Hne Hlen (le_n 2))
    as (w' & Hrun & _ & HA & _ & Hoff).
  exists w'. split; [exact Hrun|]. rewrite HA.
  split; [reflexivity|]. apply Hoff; [discriminate|apply not_elem_of_nil].
Defined.

(** A fresh block, whose hash and parent hash are both empty, linked to
    itself is the cycle of one block. *)
Lemma LinkParentBlock_cycle_witness :
  blocks w_fresh !! 1%positive = Some b_fresh ∧
  parentHash (header b_fresh) = hash (header b_fresh) ∧
  ∀ fuel, LinkParentBlock fuel 1%positive 1%positive w_fresh = OutOfFuel.
Proof.
  assert (blocks w_fresh !! 1%positive = Some b_fresh) as Hb
    by (vm_compute; reflexivity).
  assert (parentHash (header b_fresh) = hash (header b_fresh)) as Hhash
    by reflexivity.
  assert (trie_Clone (stateTrie b_fresh) = inl (stateTrie b_fresh)) as Hclone
    by reflexivity.
  assert (height b_fresh = 0) as Hh by reflexivity.
  split; [exact Hb|]. split; [exact Hhash|].
  apply (LinkParentBlock_cycle w_fresh 1%positive 1%positive b_fresh b_fresh
           (stateTrie b_fresh) (λ x, x = 1%positive)
           Hb Hb Hhash Hclone Hh eq_refl).
  intros x Hx Hne. destruct (Hne Hx).
Defined.

(** *** The wire form *)

Lemma BlockHeader_roundtrip_witness :
  blocks w_fresh !! 1%positive = Some b_fresh ∧
  BlockHeader_FromProto
    1%positive
    (BlockHeader_ToProto (PbTransaction := pbTransfer) (header b_sealed)).1
    w_fresh
  = Ret None
        (with_block 1%positive (with_header (λ _, header b_sealed) b_fresh)
                    w_fresh) ∧
  BlockHeader_FromProto 1%positive (MsgOther (PbTransaction := pbTransfer))
                        w_fresh
  = Ret (Some (errors_New not_a_header)) w_fresh.
Proof.
  assert (blocks w_fresh !! 1%positive = Some b_fresh) as Hb
    by (vm_compute; reflexivity).
  split; [exact Hb|].
  destruct (BlockHeader_roundtrip (PbTransaction := pbTransfer)
              w_fresh 1%positive b_fresh (header b_sealed) MsgOther Hb)
    as (_ & Hround & Hother & _).
  split; [exact Hround|]. apply Hother. intros m. discriminate.
Defined.

(** The sealed block [b_paid] sent to a fresh block: the fresh block gets
    its header and its transaction and stays unsealed. *)
Lemma Block_roundtrip_witness :
  blocks w_paid !! 1%positive = Some b_paid ∧
  blocks w_fresh !! 1%positive = Some b_fresh ∧
  ∃ msg : Message pbTransfer,
    Block_ToProto 1%positive w_paid = Ret (inl msg) w_paid ∧
    Block_FromProto 1%positive msg w_fresh
    = Ret None
          (with_block 1%positive
             (with_transactions (transactions b_fresh ++ transactions b_paid)
                                (with_header (λ _, header b_paid) b_fresh))
             w_fresh).
Proof.
  assert (blocks w_paid !! 1%positive = Some b_paid) as Hb
    by (vm_compute; reflexivity).
  assert (blocks w_fresh !! 1%positive = Some b_fresh) as Ht
    by (vm_compute; reflexivity).
  assert (Forall (λ tx : transfer,
                    ∃ m, tx_ToProto tx = MsgTransaction m ∧
                         tx_FromProto (MsgTransaction m) = inl tx)
                 (transactions b_paid)) as Hall.
  { assert (transactions b_paid = [t_ok]) as -> by (vm_compute; reflexivity).
    constructor; [|constructor].
    exists (Some (miner, bob, 5)). split; reflexivity. }
  split; [exact Hb|]. split; [exact Ht|].
  exact (Block_roundtrip w_paid 1%positive b_paid w_fresh 1%positive b_fresh
           Hb Ht Hall).
Defined.


Lemma Block_ToProto_result_witness :
  blocks w_last_fails !! 1%positive = Some b_last_fails ∧
  Block_ToProto 1%positive w_last_fails
  = Ret (inl (MsgBlock
                (Some (mkPbBlock
                         (Some (mkPbBlockHeader [] [] [] 0 miner 1500000000 1))
                         [Some (miner, bob, 5); Some (alice, bob, 100)]))))
        w_last_fails.
Proof.
  assert (blocks w_last_fails !! 1%positive = Some b_last_fails) as Hb
    by (vm_compute; reflexivity).
  assert (Forall2 (λ (tx : transfer) (m : option pbTransfer),
                     tx_ToProto tx = MsgTransaction m)
                  (transactions b_last_fails)
                  [Some (miner, bob, 5); Some (alice, bob, 100)]) as Hall.
  { repeat constructor. }
  split; [exact Hb|].
  exact (proj1 (Block_ToProto_result w_last_fails 1%positive b_last_fails Hb)
               _ Hall).
Defined.

(** *** Setters and getters *)

Lemma setters_then_getters_witness :
  blocks w_fresh !! 1%positive = Some b_fresh ∧ sealed b_fresh = false ∧
  ∃ w1 : @World transfer trie,
    bind (SetNonce 1%positive 7) (λ _, SetTimestamp 1%positive 9) w_fresh
    = Ret tt w1 ∧
    Nonce 1%positive w1 = Ret 7 w1 ∧
    Block_Hash 1%positive w1 = Ret (hash (header b_fresh)) w1.
Proof.
  assert (blocks w_fresh !! 1%positive = Some b_fresh) as Hb
    by (vm_compute; reflexivity).
  assert (sealed b_fresh = false) as Hs by reflexivity.
  split; [exact Hb|]. split; [exact Hs|].
  destruct (setters_then_getters w_fresh 1%positive b_fresh 7 9 Hb Hs)
    as (w1 & b1 & Hrun & _ & _ & Hn & Hh & _).
  exists w1. split; [exact Hrun|]. split; [exact Hn|exact Hh].
Defined.

End MoreRuns.
